(** * llvm-bolt-align: the command-line driver and the alignment engine

    Part I embeds [bolt/tools/align/align.cpp]: [report_error],
    [GetExecutablePath] and [main], as a computation that logs the calls it
    makes to its collaborators and may leave the process through [exit].

    Part II is the alignment engine behind [RewriteInstance::alignBinaries],
    whose code is not part of [align.cpp]; it is modelled from the design
    document. *)

From Stdlib Require Import ZArith Ascii String.
From stdpp Require Import base list strings gmultiset.

(** ** Part I: the driver *)

Module Cli.

(** The two [std::error_code] values [main] hands to [report_error]. *)
Inductive error_code :=
  | no_such_file_or_directory   (* errc::no_such_file_or_directory *)
  | invalid_file_type.          (* object_error::invalid_file_type *)

(** An [llvm::Error] in its failure state; [main] only observes
    [toString(std::move(E))]. *)
Record Error := { toString : string }.

(** [llvm::Expected<T>]: an error or a value. *)
Definition Expected (T : Type) : Type := (Error + T)%type.

(** [namespace opts]: the four [cl::opt<std::string>] options once
    [cl::ParseCommandLineOptions] has filled them. *)
Record Options := {
  InputFilename1 : string;
  InputFilename2 : string;
  OutputFilename1 : string;
  OutputFilename2 : string
}.

(** What [main] calls and does not define: the headers it includes.  A run of
    [main] is taken from the point of view of these answers. *)
Class Collaborators := {
  Binary : Type;
  ELFObjectFileBase : Type;
  RewriteInstance : Type;
  (** [std::error_code::message()] *)
  ec_message : error_code -> string;
  (** [llvm::sys::fs::exists] *)
  fs_exists : string -> bool;
  (** [llvm::sys::findProgramByName], an [ErrorOr<std::string>] *)
  findProgramByName : string -> option string;
  (** [cl::ParseCommandLineOptions], when it returns to [main] *)
  ParseCommandLineOptions : list string -> Options;
  (** [llvm::object::createBinary] *)
  createBinary : string -> Expected Binary;
  (** [dyn_cast<ELFObjectFileBase>]: null unless the binary is an ELF object *)
  dyn_cast_ELF : Binary -> option ELFObjectFileBase;
  (** [RewriteInstance::create(E, argc, argv, ToolPath)] *)
  RewriteInstance_create :
    ELFObjectFileBase -> list string -> string -> Expected RewriteInstance;
  (** [RI->run()] under the current value of [opts::DiffOnly]; [None] is
      [Error::success()] *)
  RewriteInstance_run : bool -> RewriteInstance -> option Error
}.

(** Which of the two positional inputs a call is about. *)
Inductive Slot := First | Second.

(** The validation stages of [main], in the order of the file. *)
Inductive Stage := Exists | CreateBinary | CastELF | CreateRI | RunRI.

(** What a run does, in order: the stage calls, the assignment to
    [opts::DiffOnly], the call of [alignBinaries] with the two output names,
    and what is written to [errs()]. *)
Inductive Event :=
  | Check (s : Stage) (i : Slot)
  | SetDiffOnly
  | AlignBinaries (o1 o2 : string)
  | Stderr (text : string).

#[global] Instance Slot_eq_dec : EqDecision Slot.
Proof. solve_decision. Defined.
#[global] Instance Stage_eq_dec : EqDecision Stage.
Proof. solve_decision. Defined.
#[global] Instance Event_eq_dec : EqDecision Event.
Proof. solve_decision. Defined.

(** A computation of the process: the events so far, and either the status
    passed to [exit] or a value. *)
Definition Proc (A : Type) : Type := (list Event * (Z + A))%type.

Definition ret {A} (a : A) : Proc A := ([], inr a).

Definition bind {A B} (m : Proc A) (k : A -> Proc B) : Proc B :=
  match m with
  | (t, inl code) => (t, inl code)
  | (t, inr a) => let '(t', r) := k a in (t ++ t', r)
  end.

Definition emit (e : Event) : Proc unit := ([e], inr tt).

(** [exit(code)]: nothing after it runs, whatever type was expected. *)
Definition exit {A} (code : Z) : Proc A := ([], inl code).

Notation "'let*' x ':=' m 'in' k" := (bind m (fun x => k))
  (at level 10, x name, m at level 100, k at level 200).
Notation "'run' m 'in' k" := (bind m (fun _ => k))
  (at level 10, m at level 100, k at level 200).

(** A stage call: logged, then its answer. *)
Definition call {A} (s : Stage) (i : Slot) (answer : A) : Proc A :=
  run emit (Check s i) in ret answer.

Definition trace {A} (p : Proc A) : list Event := fst p.

(** The status the process ends with: the argument of [exit], or the value
    [main] returns. *)
Definition exit_status (p : Proc Z) : Z :=
  match snd p with inl code => code | inr v => v end.

(** The lines written to [errs()], in order. *)
Definition stderr_of (t : list Event) : list string :=
  omap (fun e => match e with Stderr s => Some s | _ => None end) t.

(** The stage calls of a trace, in order. *)
Definition checks_of (t : list Event) : list (Stage * Slot) :=
  omap (fun e => match e with Check s i => Some (s, i) | _ => None end) t.

(** The calls of [alignBinaries] of a trace, with the two names given. *)
Definition aligns_of (t : list Event) : list (string * string) :=
  omap (fun e => match e with AlignBinaries o1 o2 => Some (o1, o2) | _ => None end)
    t.

(** The assignments to [opts::DiffOnly] of a trace. *)
Definition diff_only_of (t : list Event) : list unit :=
  omap (fun e => match e with SetDiffOnly => Some tt | _ => None end) t.

Definition ToolName : string := "llvm-bolt-align".

(** [<cstdlib>]'s [EXIT_SUCCESS]. *)
Definition EXIT_SUCCESS : Z := 0%Z.

Definition newline : string := String "010"%char EmptyString.

Section Driver.
Context `{Collaborators}.

(** [errs() << ToolName << ": '" << Message << "': " << text << ".\n"] *)
Definition diagnostic (Message text : string) : string :=
  ToolName +:+ ": '" +:+ Message +:+ "': " +:+ text +:+ "." +:+ newline.

(** [report_error(StringRef, std::error_code)], lines 64-68. *)
Definition report_error_ec {A} (Message : string) (EC : error_code) : Proc A :=
  run emit (Stderr (diagnostic Message (ec_message EC))) in exit 1%Z.

(** [report_error(StringRef, Error)], lines 70-75. *)
Definition report_error_E {A} (Message : string) (E : Error) : Proc A :=
  run emit (Stderr (diagnostic Message (toString E))) in exit 1%Z.

(** [GetExecutablePath], lines 85-93: a PATH lookup when [Argv0] is not a
    valid path, and [Argv0] itself when the lookup fails too. *)
Definition GetExecutablePath (Argv0 : string) : string :=
  if fs_exists Argv0 then Argv0
  else match findProgramByName Argv0 with
       | Some P => P
       | None => Argv0
       end.

(** [if (Error E = X.takeError()) report_error(Name, std::move(E));]
    followed by [X.get()]. *)
Definition get_or_report {T} (Name : string) (X : Expected T) : Proc T :=
  match X with
  | inl E => report_error_E Name E
  | inr v => ret v
  end.

(** [main], lines 95-166, from [ParseCommandLine] on (target initialisation
    and the stack-trace handlers write nothing and decide nothing).  The
    runs of this definition are the runs in which [ParseCommandLine]
    returns: [cl::ParseCommandLineOptions] ends the process itself on
    [--help], [--version] or an ill-formed command line, and such a run
    never reaches line 117. *)
Definition main (argv : list string) : Proc Z :=
  let ToolPath := GetExecutablePath (hd "" argv) in
  let opts := ParseCommandLineOptions argv in
  let* ex1 := call Exists First (fs_exists (InputFilename1 opts)) in
  run (if ex1 then ret tt
       else report_error_ec (InputFilename1 opts) no_such_file_or_directory) in
  let* ex2 := call Exists Second (fs_exists (InputFilename2 opts)) in
  run (if ex2 then ret tt
       else report_error_ec (InputFilename2 opts) no_such_file_or_directory) in
  let* BinaryOrErr1 :=
    call CreateBinary First (createBinary (InputFilename1 opts)) in
  let* Binary1 := get_or_report (InputFilename1 opts) BinaryOrErr1 in
  let* BinaryOrErr2 :=
    call CreateBinary Second (createBinary (InputFilename2 opts)) in
  let* Binary2 := get_or_report (InputFilename2 opts) BinaryOrErr2 in
  let* c1 := call CastELF First (dyn_cast_ELF Binary1) in
  let* E1 := match c1 with
             | Some e => ret e
             | None => report_error_ec (InputFilename1 opts) invalid_file_type
             end in
  let* c2 := call CastELF Second (dyn_cast_ELF Binary2) in
  let* E2 := match c2 with
             | Some e => ret e
             | None => report_error_ec (InputFilename2 opts) invalid_file_type
             end in
  let* RI1OrErr :=
    call CreateRI First (RewriteInstance_create E1 argv ToolPath) in
  let* RI1 := get_or_report (InputFilename1 opts) RI1OrErr in
  let* RI2OrErr :=
    call CreateRI Second (RewriteInstance_create E2 argv ToolPath) in
  let* RI2 := get_or_report (InputFilename2 opts) RI2OrErr in
  run emit SetDiffOnly in
  let* r1 := call RunRI First (RewriteInstance_run true RI1) in
  run match r1 with
      | Some E => report_error_E (InputFilename1 opts) E
      | None => ret tt
      end in
  let* r2 := call RunRI Second (RewriteInstance_run true RI2) in
  run match r2 with
      | Some E => report_error_E (InputFilename2 opts) E
      | None => ret tt
      end in
  run emit (AlignBinaries (OutputFilename1 opts) (OutputFilename2 opts)) in
  ret EXIT_SUCCESS.

End Driver.

End Cli.

(** ** What the driver is held to

    The vocabulary of the driver's properties: which stage turns which input
    down and with what message, and the order in which the checks are
    made. *)

Module CliSpec.
Import Cli.

Section Validation.
Context `{Collaborators}.
Variable argv : list string.

(** The name of an input, as [report_error] prints it. *)
Definition input_name (i : Slot) : string :=
  match i with
  | First => InputFilename1 (ParseCommandLineOptions argv)
  | Second => InputFilename2 (ParseCommandLineOptions argv)
  end.

(** What an input is after the stages before [RewriteInstance::create]. *)
Definition elf_of (i : Slot) : option ELFObjectFileBase :=
  match createBinary (input_name i) with
  | inl _ => None
  | inr b => dyn_cast_ELF b
  end.

Definition instance_of (i : Slot) : option RewriteInstance :=
  match elf_of i with
  | None => None
  | Some e =>
      match RewriteInstance_create e argv (GetExecutablePath (hd "" argv)) with
      | inl _ => None
      | inr r => Some r
      end
  end.

(** The message with which stage [s] turns input [i] down, if it does: the
    file is missing, unparseable, of the wrong type, or its
    [RewriteInstance] cannot be created or run. *)
Definition rejection (s : Stage) (i : Slot) : option string :=
  match s with
  | Exists =>
      if fs_exists (input_name i) then None
      else Some (ec_message no_such_file_or_directory)
  | CreateBinary =>
      match createBinary (input_name i) with
      | inl E => Some (toString E)
      | inr _ => None
      end
  | CastELF =>
      match createBinary (input_name i) with
      | inl _ => None
      | inr b =>
          match dyn_cast_ELF b with
          | None => Some (ec_message invalid_file_type)
          | Some _ => None
          end
      end
  | CreateRI =>
      match elf_of i with
      | None => None
      | Some e =>
          match RewriteInstance_create e argv (GetExecutablePath (hd "" argv)) with
          | inl E => Some (toString E)
          | inr _ => None
          end
      end
  | RunRI =>
      match instance_of i with
      | None => None
      | Some r => toString <$> RewriteInstance_run true r
      end
  end.

(** Every stage accepts both inputs. *)
Definition all_accepted : Prop :=
  forall s i, rejection s i = None.

(** The order in which [main] makes its checks. *)
Definition stage_order : list (Stage * Slot) :=
  [ (Exists, First); (Exists, Second);
    (CreateBinary, First); (CreateBinary, Second);
    (CastELF, First); (CastELF, Second);
    (CreateRI, First); (CreateRI, Second);
    (RunRI, First); (RunRI, Second) ].

(** The place of a check in [stage_order]. *)
Definition position (s : Stage) (i : Slot) : nat :=
  2 * match s with
      | Exists => 0 | CreateBinary => 1 | CastELF => 2
      | CreateRI => 3 | RunRI => 4
      end
  + match i with First => 0 | Second => 1 end.

(** [s] is the first check, in the order of [main], that turns an input
    down. *)
Definition first_rejection (s : Stage) (i : Slot) (m : string) : Prop :=
  rejection s i = Some m /\
  forall s' i', position s' i' < position s i -> rejection s' i' = None.

End Validation.

(** The events of a run that passes every check, up to [alignBinaries]. *)
Definition script : list Event :=
  [ Check Exists First; Check Exists Second;
    Check CreateBinary First; Check CreateBinary Second;
    Check CastELF First; Check CastELF Second;
    Check CreateRI First; Check CreateRI Second;
    SetDiffOnly;
    Check RunRI First; Check RunRI Second ].

(** The events of a run up to and including the check [(s, i)]. *)
Definition through (s : Stage) (i : Slot) : list Event :=
  take (S (position s i + match s with RunRI => 1 | _ => 0 end)) script.

End CliSpec.

(** ** Concrete collaborators

    A small file system, to run [main] on: each name is bound to what the
    file is, and every collaborator answers from that. *)

Module World.
Import Cli.

Inductive FileKind :=
  | Garbage        (* bytes [createBinary] does not recognise *)
  | Resource       (* a binary that is not an ELF object *)
  | ElfData        (* an ELF object with data sections only *)
  | ElfCode        (* an ELF object with code *)
  | ElfBroken      (* an ELF object [RewriteInstance::create] refuses *)
  | ElfUnrunnable. (* an ELF object on which [run] fails *)

Definition kind_of (files : list (string * FileKind)) (name : string)
  : option FileKind :=
  (fun found => snd (snd found))
    <$> list_find (fun entry => fst entry = name) files.

Definition not_an_object : string :=
  "The file was not recognized as a valid object file".

Definition world (files : list (string * FileKind)) : Collaborators := {|
  Binary := FileKind;
  ELFObjectFileBase := FileKind;
  RewriteInstance := FileKind;
  ec_message := fun ec =>
    match ec with
    | no_such_file_or_directory => "No such file or directory"
    | invalid_file_type => not_an_object
    end;
  fs_exists := fun name => bool_decide (is_Some (kind_of files name));
  findProgramByName := fun _ => None;
  ParseCommandLineOptions := fun argv =>
    {| InputFilename1 := nth 1 argv "";
       InputFilename2 := nth 2 argv "";
       OutputFilename1 := nth 3 argv "";
       OutputFilename2 := nth 4 argv "" |};
  createBinary := fun name =>
    match kind_of files name with
    | None | Some Garbage => inl {| toString := not_an_object |}
    | Some k => inr k
    end;
  dyn_cast_ELF := fun k =>
    match k with
    | Garbage | Resource => None
    | _ => Some k
    end;
  RewriteInstance_create := fun k _ _ =>
    match k with
    | ElfBroken => inl {| toString := "unsupported ELF" |}
    | _ => inr k
    end;
  RewriteInstance_run := fun _ k =>
    match k with
    | ElfUnrunnable => Some {| toString := "cannot disassemble" |}
    | _ => None
    end
|}.

Definition command_line : list string :=
  ["llvm-bolt-align"; "a.out"; "b.out"; "a.aligned"; "b.aligned"].

End World.

(** ** The same run under another PATH *)

Module Variation.
Import Cli.

(** The collaborators of [C], with [lookup] for the PATH search. *)
Definition with_lookup (C : Collaborators) (lookup : string -> option string)
  : Collaborators := {|
  Binary := @Binary C;
  ELFObjectFileBase := @ELFObjectFileBase C;
  RewriteInstance := @RewriteInstance C;
  ec_message := @ec_message C;
  fs_exists := @fs_exists C;
  findProgramByName := lookup;
  ParseCommandLineOptions := @ParseCommandLineOptions C;
  createBinary := @createBinary C;
  dyn_cast_ELF := @dyn_cast_ELF C;
  RewriteInstance_create := @RewriteInstance_create C;
  RewriteInstance_run := @RewriteInstance_run C
|}.

End Variation.

(** ** Part II: the alignment engine *)

Module Engine.

(** Everything in this module is modelled from the spec: the engine is the
    body of [RewriteInstance::alignBinaries], which [main] calls and
    [align.cpp] does not contain.  Each definition names the section of the
    design document it follows. *)

(** Modelled from the spec: the tag of a control-flow edge (section 3); the
    code of [alignBinaries] is missing. *)
Inductive EdgeKind := Fallthrough | BranchTaken | BranchIndirect | Call | Return.

#[global] Instance EdgeKind_eq_dec : EqDecision EdgeKind.
Proof. solve_decision. Defined.

Abbreviation BlockId := nat (only parsing).
Abbreviation FunctionId := nat (only parsing).
Abbreviation Fingerprint := N (only parsing).

(** Modelled from the spec: an opaque instruction record, an opcode class
    and a normalized operand shape in which address-valued operands are
    already symbolic edge references (section 3). *)
Record Instruction := {
  opcode : N;
  operand_shape : list N
}.

(** Modelled from the spec: a Basic Block (section 3).  Predecessors are
    derived from the successor edges, see [predecessors]. *)
Record BasicBlock := {
  block_id : BlockId;
  instructions : list Instruction;
  successors : list (EdgeKind * BlockId);
  unreachable_but_present : bool
}.

(** Modelled from the spec: a Function (section 3); its identifier is its
    index within the Program. *)
Record Function := {
  name : option string;
  entry : BlockId;
  size : N;
  blocks : list BasicBlock
}.

(** Modelled from the spec: a Program (section 3), identified by the path of
    its file. *)
Record Program := {
  path : string;
  functions : list Function
}.

(** Modelled from the spec: the confidence tag of a matched function pair
    (section 3). *)
Inductive Confidence := Exact | Name | Fuzzy.

#[global] Instance Confidence_eq_dec : EqDecision Confidence.
Proof. solve_decision. Defined.

(** Modelled from the spec: what the design leaves to the implementer
    (section 4.1 and the open question of section 9): the hash behind the
    block digest, the combination behind the function digest, the slack of
    the propagation pass, and the scores and floors of the fuzzy passes. *)
Class Tuning := {
  (** order-sensitive hash of a block's instruction records *)
  hash_instructions : list Instruction -> Fingerprint;
  (** combination of block count, entry digest and multiset of block digests *)
  combine : nat -> Fingerprint -> gmultiset Fingerprint -> Fingerprint;
  (** opcode sequence lengths this far apart still count as close *)
  slack : nat;
  (** weighted combination of block-count closeness, edge-count closeness
      and bag-of-blocks overlap, from the two block counts, the two edge
      counts, and the number of block digests of A found in B's remainder *)
  similarity : nat -> nat -> nat -> nat -> nat -> N;
  function_floor : N;
  (** weights of digest equality and of successor-count equality *)
  digest_weight : N;
  successor_weight : N;
  block_floor : N
}.

(** Modelled from the spec: the identifiers of the blocks a function owns,
    in storage order (section 3). *)
Definition block_ids (f : Function) : list BlockId := block_id <$> blocks f.

(** Modelled from the spec: blocks are referred to by identifier within the
    owning function (sections 3 and 9); the lookup of one. *)
Definition find_block (f : Function) (id : BlockId) : option BasicBlock :=
  snd <$> list_find (fun b => block_id b = id) (blocks f).

(** Modelled from the spec: the predecessor set of a block, derived from the
    successor edges (section 3). *)
Definition predecessors (f : Function) (id : BlockId) : list BlockId :=
  block_id <$>
    filter (fun b => id ∈ (snd <$> successors b)) (blocks f).

(** Modelled from the spec: the successor identifiers of a block
    (section 3). *)
Definition targets_of (f : Function) (id : BlockId) : list BlockId :=
  match find_block f id with
  | Some b => snd <$> successors b
  | None => []
  end.

(** Modelled from the spec: one more edge away from the blocks seen so far
    (reachability, section 3). *)
Definition reach_step (f : Function) (seen : list BlockId) : list BlockId :=
  seen ++ filter (fun t => t ∉ seen) (remove_dups (seen ≫= targets_of f)).

(** Modelled from the spec: the blocks reachable from the entry block
    (section 3). *)
Definition reachable (f : Function) : list BlockId :=
  Nat.iter (length (blocks f)) (reach_step f) [entry f].

(** Modelled from the spec: the invariants of section 3 whose violation is a
    structural inconsistency (section 7, a): block identifiers are unique,
    the entry block is a block of the function and has instructions, no
    edge dangles, and every block is reachable from the entry block or
    marked unreachable-but-present. *)
Definition well_formed (f : Function) : bool :=
  bool_decide (NoDup (block_ids f))
  && match find_block f (entry f) with
     | Some e => bool_decide (instructions e ≠ [])
     | None => false
     end
  && forallb (fun b =>
       forallb (fun e => bool_decide (snd e ∈ block_ids f)) (successors b))
       (blocks f)
  && forallb (fun b =>
       unreachable_but_present b || bool_decide (block_id b ∈ reachable f))
       (blocks f).

Section Model.
Context `{Tuning}.

(** Modelled from the spec: [digest(block)] (section 4.1), order-sensitive
    in the instructions. *)
Definition digest_block (b : BasicBlock) : Fingerprint :=
  hash_instructions (instructions b).

(** Modelled from the spec: [digest(function)] (section 4.1), a combination
    of the block count, the entry block's digest and the multiset of the
    digests of all blocks.  There is none when the entry block is missing. *)
Definition digest_function (f : Function) : option Fingerprint :=
  e ← find_block f (entry f);
  Some (combine (length (blocks f)) (digest_block e)
          (list_to_set_disj (digest_block <$> blocks f))).

(** Modelled from the spec: the function with its blocks stored as [bs],
    a reordering of block storage (section 8). *)
Definition with_blocks (f : Function) (bs : list BasicBlock) : Function :=
  {| name := name f; entry := entry f; size := size f; blocks := bs |}.


(** *** Function Matcher (section 4.2) *)

(** Modelled from the spec: the functions of a program, each with its
    identifier, the index within the program (section 3). *)
Definition indexed (P : Program) : list (FunctionId * Function) :=
  zip (seq 0 (length (functions P))) (functions P).

(** Modelled from the spec: the edge count of a function (section 4.2,
    3b). *)
Definition edge_count (f : Function) : nat :=
  sum_list (length ∘ successors <$> blocks f).

(** Modelled from the spec: the number of edges of one kind in a function
    (edge shape, section 4.1). *)
Definition edges_of_kind (k : EdgeKind) (f : Function) : nat :=
  sum_list
    ((fun b => length (filter (fun e => fst e = k) (successors b)))
       <$> blocks f).

(** Modelled from the spec: the edge shape of a function (section 4.1),
    the number of edges of each kind. *)
Definition edge_shape (f : Function) : list nat :=
  (fun k => edges_of_kind k f)
    <$> [Fallthrough; BranchTaken; BranchIndirect; Call; Return].

(** Modelled from the spec: the validation of an exact-digest match
    (section 4.1): block counts and edge shape are compared before the match
    is accepted. *)
Definition validated (fa fb : Function) : bool :=
  bool_decide (length (blocks fa) = length (blocks fb))
  && bool_decide (edge_shape fa = edge_shape fb).

Section Keyed.
Context {K : Type} `{EqDecision K}.
Variable key : Function -> option K.
Variable accept : Function -> Function -> bool.

(** Modelled from the spec: a digest group or name group (section 4.2, 1
    and 2), the candidates whose key is [k]. *)
Definition group (k : K) (cs : list (FunctionId * Function))
  : list (FunctionId * Function) :=
  filter (fun c => key (snd c) = Some k) cs.

(** Modelled from the spec: the rule shared by the exact and the name pass
    (section 4.2, 1 and 2): a candidate of A is matched when it has a key,
    it is the only unmatched function of A with that key, exactly one
    unmatched function of B has it, and the pair is accepted; otherwise it
    is left to the next pass. *)
Definition keyed_match (ua ub : list (FunctionId * Function))
    (a : FunctionId * Function)
  : option ((FunctionId * Function) * (FunctionId * Function)) :=
  k ← key (snd a);
  match group k ua, group k ub with
  | [_], [b] => if accept (snd a) (snd b) then Some (a, b) else None
  | _, _ => None
  end.

(** Modelled from the spec: one keyed pass over the unmatched functions of
    A (section 4.2, 1 and 2). *)
Definition keyed_pass (ua ub : list (FunctionId * Function))
  : list ((FunctionId * Function) * (FunctionId * Function)) :=
  omap (keyed_match ua ub) ua.

End Keyed.

Section Greedy.
Context {X : Type}.
Variable ident : X -> nat.
(** the score of a pair, given the candidates that remain on each side *)
Variable score : list X -> list X -> X -> X -> N.
Variable tie : X -> X -> nat.
Variable floor : N.

(** Modelled from the spec: a committed side leaves the candidates
    (section 4.2, 3). *)
Definition without (x : X) (l : list X) : list X :=
  filter (fun y => ident y ≠ ident x) l.

(** Modelled from the spec: [c'] beats [c] (section 4.2, 3): a higher
    score, or the same score and a larger tie-breaker. *)
Definition beats (ua ub : list X) (c' c : X * X) : bool :=
  let s := score ua ub (fst c) (snd c) in
  let s' := score ua ub (fst c') (snd c') in
  (s <? s')%N
  || ((s =? s')%N && (tie (fst c) (snd c) <? tie (fst c') (snd c'))%nat).

(** Modelled from the spec: the highest-scoring pair (section 4.2, 3);
    the assignment is stable, so among equals the earliest stands. *)
Fixpoint best (ua ub : list X) (cs : list (X * X)) : option (X * X) :=
  match cs with
  | [] => None
  | c :: rest =>
      match best ua ub rest with
      | Some c' => if beats ua ub c' c then Some c' else Some c
      | None => Some c
      end
  end.

(** Modelled from the spec: every remaining A x B candidate pair
    (section 4.2, 3). *)
Definition candidate_pairs (ua ub : list X) : list (X * X) :=
  a ← ua; b ← ub; [(a, b)].

(** Modelled from the spec: the stable greedy assignment of the fuzzy passes
    (section 4.2, 3): pick the highest-scoring unmatched pair, commit it if
    it clears the floor, remove both sides, and repeat until no pair clears
    the floor. *)
Fixpoint greedy (fuel : nat) (ua ub : list X) : list (X * X) :=
  match fuel with
  | O => []
  | S fuel' =>
      match best ua ub (candidate_pairs ua ub) with
      | Some (a, b) =>
          if (floor <=? score ua ub a b)%N
          then (a, b) :: greedy fuel' (without a ua) (without b ub)
          else []
      | None => []
      end
  end.

(** Modelled from the spec: the greedy assignment run to its end
    (section 4.2, 3): every round takes one candidate of A away. *)
Definition greedy_assignment (ua ub : list X) : list (X * X) :=
  greedy (length ua) ua ub.

End Greedy.

(** Modelled from the spec: bag-of-blocks overlap (section 4.2, 3c), the
    number of blocks of [fa] whose digest occurs in some function of
    [remaining]. *)
Definition overlap (fa : Function) (remaining : list Function) : nat :=
  length
    (filter
       (fun b => digest_block b ∈ (digest_block <$> (remaining ≫= blocks)))
       (blocks fa)).

(** Modelled from the spec: the similarity of a candidate pair (section 4.2,
    3), from block-count closeness, edge-count closeness and the share of
    A's block digests found in B's remaining functions. *)
Definition function_score (ua ub : list (FunctionId * Function))
    (a b : FunctionId * Function) : N :=
  similarity (length (blocks (snd a))) (length (blocks (snd b)))
    (edge_count (snd a)) (edge_count (snd b))
    (overlap (snd a) (snd <$> ub)).

(** Modelled from the spec: the tie-breaker of the fuzzy pass
    (section 4.2, 3), the combined block count of a pair. *)
Definition combined_block_count (a b : FunctionId * Function) : nat :=
  length (blocks (snd a)) + length (blocks (snd b)).

(** Modelled from the spec: the still-unmatched functions of a side
    (section 4.2). *)
Definition still_unmatched (matched : list FunctionId)
    (cs : list (FunctionId * Function)) : list (FunctionId * Function) :=
  filter (fun c => fst c ∉ matched) cs.

(** Modelled from the spec: the pairs of a pass under its confidence tag
    (section 4.2). *)
Definition tagged (c : Confidence)
    (ps : list ((FunctionId * Function) * (FunctionId * Function)))
  : list ((FunctionId * Function) * (FunctionId * Function) * Confidence) :=
  (fun p => (p, c)) <$> ps.

(** Modelled from the spec: [match(ProgramA, ProgramB)] (section 4.2): the
    exact pass, the name pass and the fuzzy pass, each over the functions
    the passes before it left unmatched. *)
Definition match_functions (A B : Program)
  : list ((FunctionId * Function) * (FunctionId * Function) * Confidence) :=
  let ua := indexed A in
  let ub := indexed B in
  let exact := keyed_pass digest_function validated ua ub in
  let ua1 := still_unmatched (fst ∘ fst <$> exact) ua in
  let ub1 := still_unmatched (fst ∘ snd <$> exact) ub in
  let named := keyed_pass name (fun _ _ => true) ua1 ub1 in
  let ua2 := still_unmatched (fst ∘ fst <$> named) ua1 in
  let ub2 := still_unmatched (fst ∘ snd <$> named) ub1 in
  let fuzzy :=
    greedy_assignment fst function_score combined_block_count
      function_floor ua2 ub2 in
  tagged Exact exact ++ tagged Name named ++ tagged Fuzzy fuzzy.

(** *** Block Aligner (section 4.3) *)

(** Modelled from the spec: two blocks may be paired by propagation when
    their digests are equal or their opcode sequences have the same length
    up to the slack (section 4.3, 2). *)
Definition compatible (a b : BasicBlock) : bool :=
  bool_decide (digest_block a = digest_block b)
  || bool_decide (length (instructions a) - length (instructions b) <= slack
                  /\ length (instructions b) - length (instructions a) <= slack).

(** Modelled from the spec: the outgoing edges of a block grouped by edge
    kind (section 4.3, 2): the targets of those of kind [k]. *)
Definition targets (k : EdgeKind) (b : BasicBlock) : list BlockId :=
  snd <$> filter (fun e => fst e = k) (successors b).

(** Modelled from the spec: the commitment rule of propagation
    (section 4.3, 2): [(a', b')] is committed unless one side is matched
    already or the two blocks are not compatible. *)
Definition try_commit (fa fb : Function) (m : list (BlockId * BlockId))
    (a' b' : BlockId) : list (BlockId * BlockId) :=
  if bool_decide (a' ∈ m.*1) || bool_decide (b' ∈ m.*2) then m
  else match find_block fa a', find_block fb b' with
       | Some ba, Some bb => if compatible ba bb then m ++ [(a', b')] else m
       | _, _ => m
       end.

(** Modelled from the spec: the examination of a matched pair's outgoing
    edges, kind by kind (section 4.3, 2). *)
Definition expand (fa fb : Function) (m : list (BlockId * BlockId))
    (p : BlockId * BlockId) : list (BlockId * BlockId) :=
  match find_block fa (fst p), find_block fb (snd p) with
  | Some ba, Some bb =>
      foldl (fun m k =>
        foldl (fun m a' =>
          foldl (fun m b' => try_commit fa fb m a' b') m (targets k bb))
          m (targets k ba))
        m [Fallthrough; BranchTaken; BranchIndirect; Call; Return]
  | _, _ => m
  end.

(** Modelled from the spec: the propagation pass (section 4.3, 2), a
    breadth-first flood fill: the committed pairs are examined in the order
    of their commitment, [next] counting those examined. *)
Fixpoint propagate (fuel : nat) (fa fb : Function)
    (m : list (BlockId * BlockId)) (next : nat) : list (BlockId * BlockId) :=
  match fuel with
  | O => m
  | S fuel' =>
      match m !! next with
      | Some p => propagate fuel' fa fb (expand fa fb m p) (S next)
      | None => m
      end
  end.

(** Modelled from the spec: the score of the residual pass (section 4.3, 3):
    digest equality plus successor-count equality. *)
Definition block_score (ua ub : list BasicBlock) (a b : BasicBlock) : N :=
  ((if bool_decide (digest_block a = digest_block b)
    then digest_weight else 0)
   + (if bool_decide (length (successors a) = length (successors b))
      then successor_weight else 0))%N.

(** Modelled from the spec: bijection-ness (section 4.4): no identifier
    appears on more than one pair on the same side. *)
Definition one_to_one (m : list (nat * nat)) : Prop :=
  NoDup m.*1 /\ NoDup m.*2.

(** Modelled from the spec: the result of the Block Aligner for a function
    pair: the pairs in the order of their commitment, the removed (A-only)
    and the added (B-only) blocks. *)
Record BlockAlignment := {
  block_pairs : list (BlockId * BlockId);
  removed_blocks : list BlockId;
  added_blocks : list BlockId
}.

(** Modelled from the spec: the state after the entry anchor
    (section 4.3, 1). *)
Definition entry_anchor (fa fb : Function) : list (BlockId * BlockId) :=
  [(entry fa, entry fb)].

(** Modelled from the spec: the state after propagation from the entry
    anchor (section 4.3, 2); no more pairs are committed than A has
    blocks. *)
Definition propagated (fa fb : Function) : list (BlockId * BlockId) :=
  propagate (S (length (blocks fa))) fa fb (entry_anchor fa fb) 0.

(** Modelled from the spec: the residual fuzzy pass over the blocks that
    propagation left unmatched (section 4.3, 3). *)
Definition residual (fa fb : Function) (m : list (BlockId * BlockId))
  : list (BlockId * BlockId) :=
  (fun p => (block_id (fst p), block_id (snd p)))
    <$> greedy_assignment block_id block_score (fun _ _ => 0%nat) block_floor
          (filter (fun b => block_id b ∉ m.*1) (blocks fa))
          (filter (fun b => block_id b ∉ m.*2) (blocks fb)).

(** Modelled from the spec: [align(FunctionA, FunctionB)] (section 4.3):
    entry anchor, propagation to a fixed point, residual fuzzy pass, and the
    blocks left on either side. *)
Definition align_blocks (fa fb : Function) : BlockAlignment :=
  let m := propagated fa fb in
  let pairs := m ++ residual fa fb m in
  {| block_pairs := pairs;
     removed_blocks := filter (fun i => i ∉ pairs.*1) (block_ids fa);
     added_blocks := filter (fun i => i ∉ pairs.*2) (block_ids fb) |}.

(** *** Correspondence Map (section 4.4) *)

(** Modelled from the spec: a matched function pair with its confidence
    tag and nested block alignment (section 3). *)
Record FunctionMatch := {
  id_a : FunctionId;
  id_b : FunctionId;
  confidence : Confidence;
  alignment : BlockAlignment
}.

(** Modelled from the spec: the Correspondence Map (sections 3 and 4.4): the
    matched function pairs, each with its tag and block alignment, and the
    unmatched functions of each side. *)
Record CorrespondenceMap := {
  matches : list FunctionMatch;
  unmatched_a : list FunctionId;
  unmatched_b : list FunctionId
}.

(** Modelled from the spec: the pair a function of A is on (section
    4.4). *)
Definition match_of_a (M : CorrespondenceMap) (a : FunctionId)
  : option FunctionMatch :=
  snd <$> list_find (fun fm => id_a fm = a) (matches M).

(** Modelled from the spec: the pair a function of B is on (section
    4.4). *)
Definition match_of_b (M : CorrespondenceMap) (b : FunctionId)
  : option FunctionMatch :=
  snd <$> list_find (fun fm => id_b fm = b) (matches M).

(** Modelled from the spec: [functionMatch(id)] from A to B (section
    4.4). *)
Definition functionMatch (M : CorrespondenceMap) (a : FunctionId)
  : option FunctionId := id_b <$> match_of_a M a.

(** Modelled from the spec: [functionMatch(id)] from B to A (section
    4.4). *)
Definition functionMatch_rev (M : CorrespondenceMap) (b : FunctionId)
  : option FunctionId := id_a <$> match_of_b M b.

(** Modelled from the spec: [blockMatch(functionIdA, blockId)] from A to B
    (section 4.4). *)
Definition blockMatch (M : CorrespondenceMap) (a : FunctionId) (x : BlockId)
  : option BlockId :=
  fm ← match_of_a M a;
  (fun found => snd (snd found))
    <$> list_find (fun p => fst p = x) (block_pairs (alignment fm)).

(** Modelled from the spec: [blockMatch] from B to A (section 4.4). *)
Definition blockMatch_rev (M : CorrespondenceMap) (b : FunctionId)
    (y : BlockId) : option BlockId :=
  fm ← match_of_b M b;
  (fun found => fst (snd found))
    <$> list_find (fun p => snd p = y) (block_pairs (alignment fm)).

(** Modelled from the spec: the confidence tag of a matched function
    (section 4.4). *)
Definition confidence_of (M : CorrespondenceMap) (a : FunctionId)
  : option Confidence := confidence <$> match_of_a M a.

(** Modelled from the spec: a structural inconsistency (section 7, a),
    fatal to the run and surfaced to the caller: the program and the
    function that violate the invariants. *)
Inductive AlignError :=
  | StructuralInconsistency (program : string) (function : FunctionId).

(** Modelled from the spec: the first function of a program that violates
    the invariants (section 7, a). *)
Definition first_inconsistency (P : Program) : option AlignError :=
  (fun found => StructuralInconsistency (path P) (fst found))
    <$> list_find (fun f => well_formed f = false) (functions P).

(** Modelled from the spec: a matched pair entered in the map, with the
    block alignment of its two functions (sections 2 and 4.4). *)
Definition record_match
    (p : (FunctionId * Function) * (FunctionId * Function) * Confidence)
  : FunctionMatch :=
  {| id_a := fst (fst (fst p));
     id_b := fst (snd (fst p));
     confidence := snd p;
     alignment := align_blocks (snd (fst (fst p))) (snd (snd (fst p))) |}.

(** Modelled from the spec: one alignment run (section 2): both programs
    are checked, the Function Matcher runs once, the Block Aligner once per
    matched pair, and the results make up the Correspondence Map. *)
Definition align (A B : Program) : AlignError + CorrespondenceMap :=
  match first_inconsistency A, first_inconsistency B with
  | Some e, _ => inl e
  | None, Some e => inl e
  | None, None =>
      let ms := record_match <$> match_functions A B in
      inr {| matches := ms;
             unmatched_a :=
               filter (fun i => i ∉ (id_a <$> ms))
                 (seq 0 (length (functions A)));
             unmatched_b :=
               filter (fun i => i ∉ (id_b <$> ms))
                 (seq 0 (length (functions B))) |}
  end.

End Model.
End Engine.

(** ** A tuning and programs to run the engine on *)

Module Sample.
Import Engine.

Definition word (n : N) : N := (n mod 2 ^ 64)%N.

Definition hash_instruction (h : N) (i : Instruction) : N :=
  foldl (fun h x => word (h * 31 + x + 1)) (word (h * 1099511628211 + opcode i + 1))
    (operand_shape i).

Definition closeness (x y : nat) : N :=
  if bool_decide (Nat.max x y = 0%nat) then 1000%N
  else (1000 * N.of_nat (Nat.min x y) / N.of_nat (Nat.max x y))%N.

(** A tuning for the examples: a multiplicative hash, a function digest
    that adds up the block digests, and scores in thousandths. *)
Definition tuning : Tuning := {|
  hash_instructions := foldl hash_instruction 14695981039346656037%N;
  combine := fun n e ds =>
    word (word ((N.of_nat n * 31 + e) * 31)
          + foldr (fun d acc => word (d + acc)) 0%N (elements ds));
  slack := 1;
  similarity := fun ba bb ea eb shared =>
    ((4 * closeness ba bb + 3 * closeness ea eb
      + 3 * closeness shared ba) / 10)%N;
  function_floor := 600%N;
  digest_weight := 2%N;
  successor_weight := 1%N;
  block_floor := 2%N
|}.

Definition ins (op : N) : Instruction :=
  {| opcode := op; operand_shape := [] |}.

(** The two blocks of [f]: the entry falls through to an exit block without
    a self-loop. *)
Definition bb_entry : BasicBlock :=
  {| block_id := 0; instructions := [ins 1; ins 2];
     successors := [(Fallthrough, 1)]; unreachable_but_present := false |}.

Definition bb_exit : BasicBlock :=
  {| block_id := 1; instructions := [ins 3];
     successors := []; unreachable_but_present := false |}.

Definition bb_extra : BasicBlock :=
  {| block_id := 2; instructions := [ins 9; ins 9; ins 9];
     successors := []; unreachable_but_present := true |}.

Definition fn (n : option string) (bs : list BasicBlock) : Function :=
  {| name := n; entry := 0; size := 0; blocks := bs |}.

Definition f : Function := fn (Some "f") [bb_entry; bb_exit].
Definition f_swapped : Function := fn (Some "f") [bb_exit; bb_entry].
Definition f_grown : Function := fn None [bb_entry; bb_exit; bb_extra].
Definition f_stripped : Function := fn None [bb_entry; bb_exit].

Definition g : Function :=
  fn (Some "g")
    [ {| block_id := 0; instructions := [ins 7];
         successors := []; unreachable_but_present := false |} ].

(** The same body as [f] under another name. *)
Definition f_twin : Function := fn (Some "f2") [bb_entry; bb_exit].

Definition program (p : string) (fs : list Function) : Program :=
  {| path := p; functions := fs |}.

(** What a run answers, read through the map's fields. *)
Definition summary (r : AlignError + CorrespondenceMap) :=
  match r with
  | inl e => inl e
  | inr M =>
      inr ((fun fm => (id_a fm, id_b fm, confidence fm,
                       block_pairs (alignment fm),
                       removed_blocks (alignment fm),
                       added_blocks (alignment fm))) <$> matches M,
           unmatched_a M, unmatched_b M)
  end.

End Sample.

(** ** Facts about the driver *)

Module CliFacts.
Import Cli CliSpec.

Section Runs.
Context `{Collaborators}.

Ltac oracle :=
  match goal with
  | |- context [fs_exists ?f] => destruct (fs_exists f) eqn:?
  | |- context [createBinary ?f] => destruct (createBinary f) eqn:?
  | |- context [dyn_cast_ELF ?b] => destruct (dyn_cast_ELF b) eqn:?
  | |- context [RewriteInstance_create ?e ?a ?p] =>
      destruct (RewriteInstance_create e a p) eqn:?
  | |- context [RewriteInstance_run ?d ?r] =>
      destruct (RewriteInstance_run d r) eqn:?
  end.

Lemma main_run (argv : list string) :
  (all_accepted argv /\
   main argv =
     (script ++ [AlignBinaries
                   (OutputFilename1 (ParseCommandLineOptions argv))
                   (OutputFilename2 (ParseCommandLineOptions argv))],
      inr EXIT_SUCCESS))
  \/
  (exists s i m,
     first_rejection argv s i m /\
     main argv =
       (through s i ++ [Stderr (diagnostic (input_name argv i) m)], inl 1%Z)).
Proof.
  unfold main.
  repeat (oracle; cbn -[script through diagnostic position]).
  all: lazymatch goal with
       | |- context [Check ?s ?i :: Stderr _ :: nil] =>
           right; exists s, i; eexists; split; [ split | reflexivity ]
       | |- _ => left; split; [ | reflexivity ]
       end.
  all: try (intros s' i' Hlt; destruct s', i'; cbn in Hlt; try lia).
  all: try (intros s' i'; destruct s', i').
  all: unfold rejection, instance_of, elf_of, input_name.
  all: repeat match goal with
         | E : ?x = _ |- context [?x] => rewrite E
         end.
  all: reflexivity.
Qed.

Lemma accepted_validated (argv : list string) (i : Slot) :
  all_accepted argv ->
  fs_exists (input_name argv i) = true /\
  exists b e,
    createBinary (input_name argv i) = inr b /\ dyn_cast_ELF b = Some e.
Proof.
  intros Hok.
  pose proof (Hok Exists i) as Hex.
  pose proof (Hok CreateBinary i) as Hbin.
  pose proof (Hok CastELF i) as Hcast.
  unfold rejection in Hex, Hbin, Hcast.
  destruct (fs_exists (input_name argv i)); [ | discriminate ].
  destruct (createBinary (input_name argv i)) as [E | b]; [ discriminate | ].
  destruct (dyn_cast_ELF b) as [e | ] eqn:He; [ | discriminate ].
  eauto.
Qed.

Lemma through_prefix (s : Stage) (i : Slot) :
  exists rest, script = through s i ++ rest.
Proof.
  unfold through. eexists. symmetry. apply take_drop.
Qed.

Lemma through_only_checks (s : Stage) (i : Slot) (o1 o2 : string) :
  AlignBinaries o1 o2 ∉ through s i.
Proof.
  destruct (through_prefix s i) as [rest Hrest].
  intros Hin.
  assert (Hscript : AlignBinaries o1 o2 ∈ script)
    by (rewrite Hrest; apply elem_of_app; by left).
  unfold script in Hscript.
  repeat (apply elem_of_cons in Hscript as [Heq | Hscript];
          [ discriminate | ]).
  by apply elem_of_nil in Hscript.
Qed.

Lemma checks_through (s : Stage) (i : Slot) :
  checks_of (through s i) = take (S (position s i)) stage_order.
Proof. by destruct s, i. Qed.

Lemma stderr_through (s : Stage) (i : Slot) : stderr_of (through s i) = [].
Proof. by destruct s, i. Qed.

Lemma position_inj (s s' : Stage) (i i' : Slot) :
  position s i = position s' i' -> s = s' /\ i = i'.
Proof. destruct s, s', i, i'; cbn; intros; (done || lia). Qed.

Lemma first_rejection_unique (argv : list string) s i m s' i' m' :
  first_rejection argv s i m -> first_rejection argv s' i' m' ->
  s = s' /\ i = i' /\ m = m'.
Proof.
  intros [Hr Hmin] [Hr' Hmin'].
  destruct (lt_eq_lt_dec (position s i) (position s' i')) as [[Hlt | Heq] | Hgt].
  - specialize (Hmin' _ _ Hlt). congruence.
  - apply position_inj in Heq as [-> ->].
    split; [ done | ]. split; [ done | ]. congruence.
  - specialize (Hmin _ _ Hgt). congruence.
Qed.

(** C7.  [alignBinaries] is only reached by a run in which both inputs
    exist, both were parsed by [createBinary] and both are ELF objects (and
    no later stage turned one down); the existence test, the parse and the
    ELF cast of either input are all made before the call. *)
Theorem main_validates_before_align (argv : list string) (o1 o2 : string) :
  AlignBinaries o1 o2 ∈ trace (main argv) ->
  all_accepted argv /\
  (forall i,
     fs_exists (input_name argv i) = true /\
     exists b e,
       createBinary (input_name argv i) = inr b /\ dyn_cast_ELF b = Some e) /\
  exists before after,
    trace (main argv) = before ++ AlignBinaries o1 o2 :: after /\
    forall i,
      Check Exists i ∈ before /\
      Check CreateBinary i ∈ before /\
      Check CastELF i ∈ before.
Proof.
  intros Hin.
  destruct (main_run argv) as [[Hok Hrun] | (s & i & m & _ & Hrun)];
    rewrite Hrun in Hin |- *; cbn [trace fst] in *.
  - split; [ done | ]. split; [ intros i; by apply accepted_validated | ].
    apply elem_of_app in Hin as [Hin | Hin].
    + exfalso. unfold script in Hin.
      repeat (apply elem_of_cons in Hin as [Heq | Hin]; [ discriminate | ]).
      by apply elem_of_nil in Hin.
    + apply list_elem_of_singleton in Hin as <-.
      exists script, []. split; [ done | ].
      intros []; unfold script; repeat split; repeat constructor.
  - exfalso. apply elem_of_app in Hin as [Hin | Hin].
    + by apply through_only_checks in Hin.
    + by apply list_elem_of_singleton in Hin.
Qed.

(** C8.  When some stage turns an input down (the file is missing,
    unparseable, not an ELF object, or its [RewriteInstance] cannot be
    created or run), the run writes one line to [errs()] made of the tool
    name, the name of a rejected input and the message of its rejection,
    ends with status 1 and never calls [alignBinaries]; when every stage
    accepts both inputs, nothing is written and the status is
    [EXIT_SUCCESS]. *)
Theorem main_diagnoses_and_exits (argv : list string) :
  ((exists s i m, rejection argv s i = Some m) ->
   exit_status (main argv) = 1%Z /\
   (forall o1 o2, AlignBinaries o1 o2 ∉ trace (main argv)) /\
   exists s i m,
     rejection argv s i = Some m /\
     stderr_of (trace (main argv)) =
       [ToolName +:+ ": '" +:+ input_name argv i +:+ "': " +:+ m +:+ "."
          +:+ newline]) /\
  (all_accepted argv ->
   exit_status (main argv) = EXIT_SUCCESS /\
   stderr_of (trace (main argv)) = []).
Proof.
  destruct (main_run argv) as [[Hok Hrun] | (s & i & m & [Hrej Hmin] & Hrun)];
    rewrite Hrun; cbn [trace fst exit_status snd].
  - split; [ | done ].
    intros (s & i & m & Hrej). by rewrite Hok in Hrej.
  - split.
    + intros _. split; [ done | ]. split.
      * intros o1 o2 Hin. apply elem_of_app in Hin as [Hin | Hin].
        -- by apply through_only_checks in Hin.
        -- by apply list_elem_of_singleton in Hin.
      * exists s, i, m. split; [ done | ].
        unfold stderr_of. rewrite omap_app.
        fold (stderr_of (through s i)). by rewrite stderr_through.
    + intros Hok. by rewrite Hok in Hrej.
Qed.

(** C10.  The checks of a run are an initial part of the fixed order
    existence, parse, ELF cast, creation, run, each made for the first input
    and then for the second.  The run stops at the first check that turns an
    input down, and what it writes to [errs()] is the one line
    [llvm-bolt-align: '<input>': <message>.] about that input, followed by a
    line feed; no run writes more than one line, and when both inputs are
    missing the one line is about the first, with the message of
    [no_such_file_or_directory]. *)
Theorem main_reports_first_rejection_only (argv : list string) :
  (exists n, checks_of (trace (main argv)) = take n stage_order) /\
  (forall s i m,
     first_rejection argv s i m ->
     checks_of (trace (main argv)) = take (S (position s i)) stage_order /\
     stderr_of (trace (main argv)) =
       ["llvm-bolt-align: '" +:+ input_name argv i +:+ "': " +:+ m +:+ "."
          +:+ String "010"%char EmptyString] /\
     exit_status (main argv) = 1%Z) /\
  length (stderr_of (trace (main argv))) <= 1 /\
  (fs_exists (InputFilename1 (ParseCommandLineOptions argv)) = false ->
   fs_exists (InputFilename2 (ParseCommandLineOptions argv)) = false ->
   stderr_of (trace (main argv)) =
     ["llvm-bolt-align: '" +:+ InputFilename1 (ParseCommandLineOptions argv)
        +:+ "': " +:+ ec_message no_such_file_or_directory +:+ "."
        +:+ String "010"%char EmptyString]).
Proof.
  assert (Hfirst : forall s i m,
    first_rejection argv s i m ->
    checks_of (trace (main argv)) = take (S (position s i)) stage_order /\
    stderr_of (trace (main argv)) =
      ["llvm-bolt-align: '" +:+ input_name argv i +:+ "': " +:+ m +:+ "."
         +:+ String "010"%char EmptyString] /\
    exit_status (main argv) = 1%Z).
  { intros s i m Hfr.
    destruct (main_run argv) as [[Hok _] | (s' & i' & m' & Hfr' & Hrun)].
    - destruct Hfr as [Hrej _]. by rewrite Hok in Hrej.
    - destruct (first_rejection_unique _ _ _ _ _ _ _ Hfr Hfr')
        as (<- & <- & <-).
      rewrite Hrun. cbn [trace fst exit_status snd].
      unfold checks_of, stderr_of. rewrite !omap_app.
      fold (checks_of (through s i)). fold (stderr_of (through s i)).
      rewrite checks_through, stderr_through. cbn.
      by rewrite app_nil_r. }
  split; [ | split; [ exact Hfirst | split ] ].
  - destruct (main_run argv) as [[_ Hrun] | (s & i & m & Hfr & _)].
    + exists 10. by rewrite Hrun.
    + exists (S (position s i)). by apply Hfirst in Hfr as [-> _].
  - destruct (main_run argv) as [[_ Hrun] | (s & i & m & Hfr & _)].
    + rewrite Hrun. cbn. lia.
    + apply Hfirst in Hfr as (_ & -> & _). cbn. lia.
  - intros Hmiss1 _.
    change (fs_exists (input_name argv First) = false) in Hmiss1.
    apply (Hfirst Exists First (ec_message no_such_file_or_directory)). split.
    + unfold rejection. by rewrite Hmiss1.
    + intros s' i' Hlt. cbn in Hlt. lia.
Qed.

End Runs.

Import World.

(** A run on two ELF objects with code. *)
Example run_on_two_objects :
  @main (world [("a.out", ElfCode); ("b.out", ElfCode)]) command_line
  = (script ++ [AlignBinaries "a.aligned" "b.aligned"], inr 0%Z).
Proof. reflexivity. Qed.

(** A run whose inputs are both missing reports [a.out] alone. *)
Example run_on_missing_inputs :
  @main (world []) command_line
  = ([Check Exists First;
      Stderr ("llvm-bolt-align: 'a.out': No such file or directory."
                +:+ newline)],
     inl 1%Z).
Proof. reflexivity. Qed.

Lemma main_validates_before_align_witness :
  AlignBinaries "a.aligned" "b.aligned"
    ∈ trace (@main (world [("a.out", ElfCode); ("b.out", ElfCode)]) command_line)
  /\
  exists before after,
    trace (@main (world [("a.out", ElfCode); ("b.out", ElfCode)]) command_line)
      = before ++ AlignBinaries "a.aligned" "b.aligned" :: after /\
    Check CastELF Second ∈ before.
Proof.
  assert (Hin : AlignBinaries "a.aligned" "b.aligned"
    ∈ trace (@main (world [("a.out", ElfCode); ("b.out", ElfCode)])
               command_line)).
  { vm_compute. repeat constructor. }
  split; [ exact Hin | ].
  destruct (@main_validates_before_align
              (world [("a.out", ElfCode); ("b.out", ElfCode)])
              command_line _ _ Hin)
    as (_ & _ & before & after & Htrace & Hchecks).
  exists before, after. split; [ exact Htrace | ].
  apply (Hchecks Second).
Defined.

(** A run on binaries that are not ELF objects stops at the cast of lines
    135-143; a run on bytes [createBinary] does not recognise stops at
    lines 123-126. *)
Example run_on_data_only_binary :
  @main (world [("a.out", Resource); ("b.out", Resource)]) command_line
  = ([Check Exists First; Check Exists Second;
      Check CreateBinary First; Check CreateBinary Second;
      Check CastELF First;
      Stderr ("llvm-bolt-align: 'a.out': "
                +:+ not_an_object +:+ "." +:+ newline)],
     inl 1%Z).
Proof. reflexivity. Qed.

Example run_on_raw_blob :
  @main (world [("a.out", Garbage); ("b.out", ElfCode)]) command_line
  = ([Check Exists First; Check Exists Second; Check CreateBinary First;
      Stderr ("llvm-bolt-align: 'a.out': "
                +:+ not_an_object +:+ "." +:+ newline)],
     inl 1%Z).
Proof. reflexivity. Qed.

End CliFacts.

(** ** More about the driver *)

Module DriverFacts.
Import Cli CliSpec World Variation CliFacts.

Section MoreRuns.
Context `{Collaborators}.

Lemma check_in_through (s s0 : Stage) (i i0 : Slot) :
  Check s i ∈ through s0 i0 <-> position s i <= position s0 i0.
Proof.
  destruct s, i, s0, i0; refine (bool_decide_unpack _ _); vm_compute;
    exact I.
Qed.

Lemma check_in_script (s : Stage) (i : Slot) : Check s i ∈ script.
Proof. destruct s, i; unfold script; repeat constructor. Qed.

(** X1.  From line 117 on, that is once [cl::ParseCommandLineOptions] has
    returned, a run ends in one of two ways: [main] returns [EXIT_SUCCESS],
    and then [alignBinaries] was called and nothing was written to
    [errs()]; or [report_error] left through [exit(1)], and then what was
    written is exactly one line [llvm-bolt-align: '<input>': <message>.]
    about one of the two inputs, and [alignBinaries] was not called. *)
Theorem main_status_tells_outcome (argv : list string) :
  (snd (main argv) = inr 0%Z \/ snd (main argv) = inl 1%Z) /\
  (exit_status (main argv) = 0%Z <->
   exists o1 o2, AlignBinaries o1 o2 ∈ trace (main argv)) /\
  (exit_status (main argv) = 1%Z <->
   exists i m,
     stderr_of (trace (main argv)) =
       ["llvm-bolt-align: '" +:+ input_name argv i +:+ "': " +:+ m +:+ "."
          +:+ String "010"%char EmptyString]) /\
  (exit_status (main argv) = 0%Z <->
   stderr_of (trace (main argv)) = []).
Proof.
  destruct (main_run argv) as [[_ Hrun] | (s & i & m & _ & Hrun)];
    rewrite Hrun; cbn [trace fst exit_status snd].
  - split; [ by left | ]. split; [ | split ].
    + split; [ intros _ | done ].
      eexists _, _. apply elem_of_app. right.
      by apply list_elem_of_singleton.
    + split; [ done | ]. intros (i & m & Hline). discriminate.
    + done.
  - assert (Herr : stderr_of
                     (through s i
                      ++ [Stderr (diagnostic (input_name argv i) m)])
                   = [diagnostic (input_name argv i) m]).
    { unfold stderr_of. rewrite omap_app.
      fold (stderr_of (through s i)). by rewrite stderr_through. }
    rewrite Herr.
    split; [ by right | ]. split; [ | split ].
    + split; [ done | ]. intros (o1 & o2 & Hin).
      apply elem_of_app in Hin as [Hin | Hin].
      * by apply through_only_checks in Hin.
      * by apply list_elem_of_singleton in Hin.
    + split; [ intros _ | done ]. by exists i, m.
    + split; done.
Qed.

(** X2.  When [alignBinaries] is called, it is the last thing the run does,
    and it is given the value of [-o1] first and the value of [-o2]
    second. *)
Theorem alignBinaries_last_with_outputs (argv : list string) (o1 o2 : string) :
  AlignBinaries o1 o2 ∈ trace (main argv) ->
  o1 = OutputFilename1 (ParseCommandLineOptions argv) /\
  o2 = OutputFilename2 (ParseCommandLineOptions argv) /\
  exists before,
    trace (main argv) = before ++ [AlignBinaries o1 o2] /\
    forall a b, AlignBinaries a b ∉ before.
Proof.
  intros Hin.
  destruct (main_run argv) as [[_ Hrun] | (s & i & m & _ & Hrun)];
    rewrite Hrun in Hin |- *; cbn [trace fst] in *.
  - apply elem_of_app in Hin as [Hin | Hin].
    + exfalso. unfold script in Hin.
      repeat (apply elem_of_cons in Hin as [Heq | Hin]; [ discriminate | ]).
      by apply elem_of_nil in Hin.
    + apply list_elem_of_singleton in Hin. injection Hin as -> ->.
      split; [ done | ]. split; [ done | ].
      exists script. split; [ done | ].
      intros a b Hab. unfold script in Hab.
      repeat (apply elem_of_cons in Hab as [Heq | Hab]; [ discriminate | ]).
      by apply elem_of_nil in Hab.
  - exfalso. apply elem_of_app in Hin as [Hin | Hin].
    + by apply through_only_checks in Hin.
    + by apply list_elem_of_singleton in Hin.
Qed.

(** X4.  A check is made exactly when every check before it, in the order
    of [main], accepted its input: both inputs pass a stage before either
    enters the next. *)
Theorem check_made_iff_earlier_accepted
    (argv : list string) (s : Stage) (i : Slot) :
  Check s i ∈ trace (main argv) <->
  forall s' i', position s' i' < position s i -> rejection argv s' i' = None.
Proof.
  destruct (main_run argv) as [[Hok Hrun] | (s0 & i0 & m & [Hrej Hmin] & Hrun)];
    rewrite Hrun; cbn [trace fst].
  - split; [ intros _ s' i' _; apply Hok | intros _ ].
    apply elem_of_app. left. apply check_in_script.
  - rewrite elem_of_app, check_in_through, list_elem_of_singleton. split.
    + intros [Hle | Heq]; [ | discriminate ].
      intros s' i' Hlt. apply Hmin. lia.
    + intros Hearlier. left.
      destruct (decide (position s i <= position s0 i0)) as [Hle | Hgt];
        [ done | ].
      rewrite Hearlier in Hrej by lia. discriminate.
Qed.

Lemma split_unique {A} (x : A) (l1 l2 k1 k2 : list A) :
  NoDup (l1 ++ x :: l2) -> l1 ++ x :: l2 = k1 ++ x :: k2 ->
  l1 = k1 /\ l2 = k2.
Proof.
  revert k1. induction l1 as [ | a l1 IH ]; intros [ | b k1 ] Hnd Heq;
    cbn in *.
  - by injection Heq as ->.
  - injection Heq as <- ->. apply NoDup_cons_1_1 in Hnd.
    exfalso. apply Hnd, elem_of_app. right. apply list_elem_of_here.
  - injection Heq as -> <-. apply NoDup_cons_1_1 in Hnd.
    exfalso. apply Hnd, elem_of_app. right. apply list_elem_of_here.
  - injection Heq as <- Heq. apply NoDup_cons_1_2 in Hnd.
    destruct (IH _ Hnd Heq) as [-> ->]. done.
Qed.

Lemma script_NoDup : NoDup script.
Proof. refine (bool_decide_unpack _ _). vm_compute. exact I. Qed.

Lemma through_NoDup (s : Stage) (i : Slot) : NoDup (through s i).
Proof.
  destruct (through_prefix s i) as [rest Hrest].
  pose proof script_NoDup as Hnd. rewrite Hrest in Hnd.
  by apply list.NoDup_app in Hnd as [Hnd _].
Qed.

Lemma through_no_stderr (s : Stage) (i : Slot) (x : string) :
  Stderr x ∉ through s i.
Proof.
  intros Hin.
  assert (Hx : x ∈ stderr_of (through s i)).
  { unfold stderr_of. apply list_elem_of_omap. by exists (Stderr x). }
  rewrite stderr_through in Hx. by apply elem_of_nil in Hx.
Qed.

Lemma success_trace_NoDup (o1 o2 : string) :
  NoDup (script ++ [AlignBinaries o1 o2]).
Proof.
  apply list.NoDup_app. split; [ apply script_NoDup | ].
  split; [ | apply NoDup_singleton ].
  intros e He Hin. apply list_elem_of_singleton in Hin as ->.
  unfold script in He.
  repeat (apply elem_of_cons in He as [Heq | He]; [ discriminate | ]).
  by apply elem_of_nil in He.
Qed.

Lemma failure_trace_NoDup (s : Stage) (i : Slot) (x : string) :
  NoDup (through s i ++ [Stderr x]).
Proof.
  apply list.NoDup_app. split; [ apply through_NoDup | ].
  split; [ | apply NoDup_singleton ].
  intros e He Hin. apply list_elem_of_singleton in Hin as ->.
  by apply through_no_stderr in He.
Qed.

Lemma diff_only_in_through (s : Stage) (i : Slot) :
  SetDiffOnly ∈ through s i <-> s = RunRI.
Proof.
  destruct s, i; refine (bool_decide_unpack _ _); vm_compute; exact I.
Qed.

Lemma before_RunRI (s : Stage) (i i0 : Slot) :
  s ≠ RunRI -> position s i < position RunRI i0.
Proof. destruct s, i, i0; cbn; intros; (done || lia). Qed.

(** X3.  [opts::DiffOnly] is set exactly in the runs in which both
    [RewriteInstance]s were created; where it is set in a run, both
    creations lie before it, no [run()] lies before it, and it is not set
    again after. *)
Theorem diff_only_set_between_create_and_run (argv : list string) :
  (SetDiffOnly ∈ trace (main argv) <->
   forall s i, s ≠ RunRI -> rejection argv s i = None) /\
  (forall before after,
     trace (main argv) = before ++ SetDiffOnly :: after ->
     (forall i, Check CreateRI i ∈ before) /\
     (forall i, Check RunRI i ∉ before) /\
     SetDiffOnly ∉ after).
Proof.
  destruct (main_run argv) as [[Hok Hrun] | (s0 & i0 & m & [Hrej Hmin] & Hrun)];
    rewrite Hrun; cbn [trace fst].
  - split.
    + split; [ intros _ s i _; apply Hok | intros _ ].
      apply elem_of_app. left. unfold script. repeat constructor.
    + intros before after Hsplit.
      pose proof (success_trace_NoDup
                    (OutputFilename1 (ParseCommandLineOptions argv))
                    (OutputFilename2 (ParseCommandLineOptions argv))) as Hnd.
      change (script ++ [AlignBinaries
                (OutputFilename1 (ParseCommandLineOptions argv))
                (OutputFilename2 (ParseCommandLineOptions argv))])
        with (take 8 script ++ SetDiffOnly ::
                [Check RunRI First; Check RunRI Second;
                 AlignBinaries
                   (OutputFilename1 (ParseCommandLineOptions argv))
                   (OutputFilename2 (ParseCommandLineOptions argv))])
        in Hnd, Hsplit.
      destruct (split_unique _ _ _ _ _ Hnd Hsplit) as [<- <-].
      split; [ intros []; cbn; repeat constructor | ].
      split; [ intros i Hin | intros Hin ]; cbn in Hin;
        repeat (apply elem_of_cons in Hin as [Heq | Hin];
                [ discriminate | ]);
        by apply elem_of_nil in Hin.
  - split.
    + rewrite elem_of_app, diff_only_in_through, list_elem_of_singleton.
      split.
      * intros [-> | Heq]; [ | discriminate ].
        intros s i Hs. apply Hmin. by apply before_RunRI.
      * intros Hearlier. left.
        destruct (decide (s0 = RunRI)) as [Hs0 | Hs0]; [ done | ].
        rewrite (Hearlier _ _ Hs0) in Hrej. discriminate.
    + intros before after Hsplit.
      assert (Hs0 : s0 = RunRI).
      { apply (diff_only_in_through s0 i0).
        assert (Hin : SetDiffOnly
                        ∈ through s0 i0
                          ++ [Stderr (diagnostic (input_name argv i0) m)])
          by (rewrite Hsplit; apply elem_of_app; right;
              apply list_elem_of_here).
        apply elem_of_app in Hin as [Hin | Hin]; [ done | ].
        by apply list_elem_of_singleton in Hin. }
      subst s0.
      pose proof (failure_trace_NoDup RunRI i0
                    (diagnostic (input_name argv i0) m)) as Hnd.
      destruct i0.
      * change (through RunRI First
                ++ [Stderr (diagnostic (input_name argv First) m)])
          with (take 8 script ++ SetDiffOnly ::
                  [Check RunRI First;
                   Stderr (diagnostic (input_name argv First) m)])
          in Hnd, Hsplit.
        destruct (split_unique _ _ _ _ _ Hnd Hsplit) as [<- <-].
        split; [ intros []; cbn; repeat constructor | ].
        split; [ intros i Hin | intros Hin ]; cbn in Hin;
          repeat (apply elem_of_cons in Hin as [Heq | Hin];
                  [ discriminate | ]);
          by apply elem_of_nil in Hin.
      * change (through RunRI Second
                ++ [Stderr (diagnostic (input_name argv Second) m)])
          with (take 8 script ++ SetDiffOnly ::
                  [Check RunRI First; Check RunRI Second;
                   Stderr (diagnostic (input_name argv Second) m)])
          in Hnd, Hsplit.
        destruct (split_unique _ _ _ _ _ Hnd Hsplit) as [<- <-].
        split; [ intros []; cbn; repeat constructor | ].
        split; [ intros i Hin | intros Hin ]; cbn in Hin;
          repeat (apply elem_of_cons in Hin as [Heq | Hin];
                  [ discriminate | ]);
          by apply elem_of_nil in Hin.
Qed.

Lemma through_aligns (s : Stage) (i : Slot) : aligns_of (through s i) = [].
Proof. by destruct s, i. Qed.

Lemma through_diff_only (s : Stage) (i : Slot) :
  length (diff_only_of (through s i)) <= 1.
Proof. destruct s, i; vm_compute; lia. Qed.

(** X5.  No run does the same thing twice: no collaborator is asked twice
    about the same input, [opts::DiffOnly] is assigned at most once,
    [alignBinaries] is called at most once, whatever names it is given, and
    at most one line is written, whatever it says. *)
Theorem main_never_repeats (argv : list string) :
  NoDup (trace (main argv)) /\
  NoDup (checks_of (trace (main argv))) /\
  length (diff_only_of (trace (main argv))) <= 1 /\
  length (aligns_of (trace (main argv))) <= 1 /\
  length (stderr_of (trace (main argv))) <= 1.
Proof.
  destruct (main_run argv) as [[_ Hrun] | (s & i & m & _ & Hrun)];
    rewrite Hrun; cbn [trace fst].
  - split; [ apply success_trace_NoDup | ].
    split; [ refine (bool_decide_unpack _ _); vm_compute; exact I | ].
    repeat split; vm_compute; lia.
  - split; [ apply failure_trace_NoDup | ]. split; [ | repeat split ].
    + unfold checks_of. rewrite omap_app. fold (checks_of (through s i)).
      rewrite checks_through. cbn -[take stage_order position].
      rewrite app_nil_r.
      eapply sublist_NoDup; [ | apply sublist_take ].
      refine (bool_decide_unpack _ _). vm_compute. exact I.
    + unfold diff_only_of. rewrite omap_app.
      fold (diff_only_of (through s i)). rewrite length_app.
      pose proof (through_diff_only s i) as Hone.
      cbn [omap list_omap length]. lia.
    + unfold aligns_of. rewrite omap_app.
      fold (aligns_of (through s i)). rewrite through_aligns. cbn. lia.
    + unfold stderr_of. rewrite omap_app.
      fold (stderr_of (through s i)). rewrite stderr_through. cbn. lia.
Qed.

(** X8.  When the PATH search for [Argv0] answers with a path that exists
    or with [Argv0] itself: [GetExecutablePath] applied to its own result
    changes nothing; its result exists exactly when [Argv0] exists or the
    search answered with an existing path; and a result that does not exist
    is [Argv0] itself. *)
Theorem GetExecutablePath_settles (Argv0 : string) :
  (forall P, findProgramByName Argv0 = Some P ->
             fs_exists P = true \/ P = Argv0) ->
  GetExecutablePath (GetExecutablePath Argv0) = GetExecutablePath Argv0 /\
  (fs_exists (GetExecutablePath Argv0) = true <->
   fs_exists Argv0 = true \/
   exists P, findProgramByName Argv0 = Some P /\ fs_exists P = true) /\
  (fs_exists (GetExecutablePath Argv0) = false ->
   GetExecutablePath Argv0 = Argv0).
Proof.
  intros Hpath. unfold GetExecutablePath.
  destruct (fs_exists Argv0) eqn:Hex.
  - rewrite Hex. split; [ done | ]. split; [ | done ]. split; auto.
  - destruct (findProgramByName Argv0) as [P | ] eqn:Hfind.
    + destruct (Hpath P eq_refl) as [HP | ->].
      * rewrite HP. split; [ done | ]. split; [ | done ].
        split; [ intros _; right; by exists P | done ].
      * rewrite Hex, Hfind. split; [ done | ]. split; [ | done ].
        split; [ done | ].
        intros [Hfalse | (P & [= <-] & HP)]; congruence.
    + rewrite Hex, Hfind. split; [ done | ]. split; [ | done ].
      split; [ done | ].
      intros [Hfalse | (P & HP & _)]; done.
Qed.

End MoreRuns.

(** X7.  When [argv[0]] names an existing file the PATH is not searched:
    whatever [findProgramByName] would answer, the run is the same. *)
Theorem main_ignores_PATH_for_existing_argv0
    (C : Collaborators) (lookup : string -> option string)
    (argv : list string) :
  @fs_exists C (hd "" argv) = true ->
  @main (with_lookup C lookup) argv = @main C argv.
Proof.
  intros Hex. unfold main.
  assert (Hpath : @GetExecutablePath (with_lookup C lookup) (hd "" argv)
                  = @GetExecutablePath C (hd "" argv)).
  { unfold GetExecutablePath. cbn. by rewrite Hex. }
  rewrite Hpath. reflexivity.
Qed.

Lemma alignBinaries_last_with_outputs_witness :
  AlignBinaries "a.aligned" "b.aligned"
    ∈ trace (@main (world [("a.out", ElfData); ("b.out", ElfCode)])
               command_line)
  /\ "a.aligned"
     = OutputFilename1
         (@ParseCommandLineOptions
            (world [("a.out", ElfData); ("b.out", ElfCode)]) command_line).
Proof.
  assert (Hin : AlignBinaries "a.aligned" "b.aligned"
    ∈ trace (@main (world [("a.out", ElfData); ("b.out", ElfCode)])
               command_line)).
  { vm_compute. repeat constructor. }
  split; [ exact Hin | ].
  apply (@alignBinaries_last_with_outputs
           (world [("a.out", ElfData); ("b.out", ElfCode)])
           command_line _ _ Hin).
Defined.

Lemma GetExecutablePath_settles_witness :
  (forall P,
     @findProgramByName
       (with_lookup (world [("/usr/bin/llvm-bolt-align", ElfCode)])
          (fun a => if String.eqb a "llvm-bolt-align"
                    then Some "/usr/bin/llvm-bolt-align" else Some a))
       "llvm-bolt-align" = Some P ->
     @fs_exists
       (with_lookup (world [("/usr/bin/llvm-bolt-align", ElfCode)])
          (fun a => if String.eqb a "llvm-bolt-align"
                    then Some "/usr/bin/llvm-bolt-align" else Some a))
       P = true \/ P = "llvm-bolt-align") /\
  @GetExecutablePath
    (with_lookup (world [("/usr/bin/llvm-bolt-align", ElfCode)])
       (fun a => if String.eqb a "llvm-bolt-align"
                 then Some "/usr/bin/llvm-bolt-align" else Some a))
    "llvm-bolt-align" = "/usr/bin/llvm-bolt-align" /\
  @GetExecutablePath
    (with_lookup (world [("/usr/bin/llvm-bolt-align", ElfCode)])
       (fun a => if String.eqb a "llvm-bolt-align"
                 then Some "/usr/bin/llvm-bolt-align" else Some a))
    (@GetExecutablePath
       (with_lookup (world [("/usr/bin/llvm-bolt-align", ElfCode)])
          (fun a => if String.eqb a "llvm-bolt-align"
                    then Some "/usr/bin/llvm-bolt-align" else Some a))
       "llvm-bolt-align")
  = "/usr/bin/llvm-bolt-align".
Proof.
  assert (Hpath : forall P,
    @findProgramByName
      (with_lookup (world [("/usr/bin/llvm-bolt-align", ElfCode)])
         (fun a => if String.eqb a "llvm-bolt-align"
                   then Some "/usr/bin/llvm-bolt-align" else Some a))
      "llvm-bolt-align" = Some P ->
    @fs_exists
      (with_lookup (world [("/usr/bin/llvm-bolt-align", ElfCode)])
         (fun a => if String.eqb a "llvm-bolt-align"
                   then Some "/usr/bin/llvm-bolt-align" else Some a))
      P = true \/ P = "llvm-bolt-align").
  { intros P [= <-]. left. reflexivity. }
  split; [ exact Hpath | ]. split; [ reflexivity | ].
  destruct (@GetExecutablePath_settles
              (with_lookup (world [("/usr/bin/llvm-bolt-align", ElfCode)])
                 (fun a => if String.eqb a "llvm-bolt-align"
                           then Some "/usr/bin/llvm-bolt-align" else Some a))
              "llvm-bolt-align" Hpath) as [Hidem _].
  rewrite Hidem. reflexivity.
Defined.

Lemma main_ignores_PATH_for_existing_argv0_witness :
  @fs_exists
    (world [("llvm-bolt-align", ElfCode); ("a.out", ElfCode);
            ("b.out", ElfCode)])
    (hd "" command_line) = true /\
  @main
    (with_lookup
       (world [("llvm-bolt-align", ElfCode); ("a.out", ElfCode);
               ("b.out", ElfCode)])
       (fun _ => Some "/opt/bolt/llvm-bolt-align"))
    command_line
  = (script ++ [AlignBinaries "a.aligned" "b.aligned"], inr EXIT_SUCCESS).
Proof.
  split; [ reflexivity | ].
  rewrite (main_ignores_PATH_for_existing_argv0
             (world [("llvm-bolt-align", ElfCode); ("a.out", ElfCode);
                     ("b.out", ElfCode)])
             (fun _ => Some "/opt/bolt/llvm-bolt-align")
             command_line eq_refl).
  reflexivity.
Defined.

End DriverFacts.

(** ** Facts about the engine *)

Module EngineFacts.
Import Engine.

Lemma fmap_NoDup_inj {A B} (f : A -> B) (l : list A) (x y : A) :
  NoDup (f <$> l) -> x ∈ l -> y ∈ l -> f x = f y -> x = y.
Proof.
  induction l as [ | z l IH ]; cbn; intros Hnd Hx Hy Hf.
  - by apply elem_of_nil in Hx.
  - apply list.NoDup_cons in Hnd as [Hz Hnd].
    apply elem_of_cons in Hx as [-> | Hx];
      apply elem_of_cons in Hy as [-> | Hy]; try done.
    + exfalso. apply Hz. rewrite Hf. by apply list_elem_of_fmap_2.
    + exfalso. apply Hz. rewrite <- Hf. by apply list_elem_of_fmap_2.
    + by apply IH.
Qed.

(** *** Block lookup *)

Lemma find_block_Some (f : Function) (id : BlockId) (b : BasicBlock) :
  find_block f id = Some b -> b ∈ blocks f /\ block_id b = id.
Proof.
  unfold find_block. intros Hfind.
  destruct (list_find _ _) as [[i b'] | ] eqn:Hlf; [ | done ].
  cbn in Hfind. injection Hfind as ->.
  apply list_find_Some in Hlf as (Hi & Hid & _).
  split; [ by eapply list_elem_of_lookup_2 | done ].
Qed.

Lemma find_block_unique (f : Function) (b : BasicBlock) :
  NoDup (block_ids f) -> b ∈ blocks f -> find_block f (block_id b) = Some b.
Proof.
  intros Hnd Hb. unfold find_block.
  destruct (list_find_elem_of (fun b' => block_id b' = block_id b)
              (blocks f) b Hb eq_refl) as [[i b'] Hlf].
  rewrite Hlf. cbn. f_equal.
  apply list_find_Some in Hlf as (Hi & Hid & _).
  eapply (fmap_NoDup_inj block_id); eauto.
  by eapply list_elem_of_lookup_2.
Qed.

Lemma find_block_None (f : Function) (id : BlockId) :
  find_block f id = None -> id ∉ block_ids f.
Proof.
  unfold find_block. intros Hfind Hin.
  apply list_elem_of_fmap in Hin as (b & -> & Hb).
  destruct (list_find_elem_of (fun b' => block_id b' = block_id b)
              (blocks f) b Hb eq_refl) as [x Hlf].
  by rewrite Hlf in Hfind.
Qed.

(** *** The greedy assignment *)

Section GreedyFacts.
Context {X : Type}.
Variable ident : X -> nat.
Variable score : list X -> list X -> X -> X -> N.
Variable tie : X -> X -> nat.
Variable floor : N.

Lemma best_elem (ua ub : list X) (cs : list (X * X)) (c : X * X) :
  best score tie ua ub cs = Some c -> c ∈ cs.
Proof.
  revert c. induction cs as [ | c0 cs IH ]; cbn; intros c Hbest; [ done | ].
  destruct (best score tie ua ub cs) as [c' | ].
  - destruct (beats score tie ua ub c' c0); injection Hbest as <-.
    + apply list_elem_of_further. by apply IH.
    + apply list_elem_of_here.
  - injection Hbest as <-. apply list_elem_of_here.
Qed.

Lemma candidate_pairs_elem (ua ub : list X) (a b : X) :
  (a, b) ∈ candidate_pairs ua ub <-> a ∈ ua /\ b ∈ ub.
Proof.
  unfold candidate_pairs. rewrite list_elem_of_bind. split.
  - intros (a' & Hin & Ha).
    apply list_elem_of_bind in Hin as (b' & Hin & Hb).
    apply list_elem_of_singleton in Hin. by injection Hin as -> ->.
  - intros [Ha Hb]. exists a. split; [ | done ].
    apply list_elem_of_bind. exists b. split; [ | done ].
    by apply list_elem_of_singleton.
Qed.

Lemma without_elem (x y : X) (l : list X) :
  y ∈ without ident x l <-> ident y ≠ ident x /\ y ∈ l.
Proof. unfold without. by rewrite list_elem_of_filter. Qed.

Lemma greedy_elem (fuel : nat) (ua ub : list X) (a b : X) :
  (a, b) ∈ greedy ident score tie floor fuel ua ub -> a ∈ ua /\ b ∈ ub.
Proof.
  revert ua ub. induction fuel as [ | fuel IH ]; cbn; intros ua ub Hin.
  - by apply elem_of_nil in Hin.
  - destruct (best score tie ua ub (candidate_pairs ua ub))
      as [[a0 b0] | ] eqn:Hbest; [ | by apply elem_of_nil in Hin ].
    destruct (floor <=? score ua ub a0 b0)%N;
      [ | by apply elem_of_nil in Hin ].
    apply elem_of_cons in Hin as [Heq | Hin].
    + injection Heq as -> ->.
      apply best_elem in Hbest. by apply candidate_pairs_elem in Hbest.
    + apply IH in Hin as [Ha Hb].
      apply without_elem in Ha as [_ Ha]. apply without_elem in Hb as [_ Hb].
      done.
Qed.

Lemma greedy_NoDup (fuel : nat) (ua ub : list X) :
  NoDup (ident ∘ fst <$> greedy ident score tie floor fuel ua ub) /\
  NoDup (ident ∘ snd <$> greedy ident score tie floor fuel ua ub).
Proof.
  revert ua ub. induction fuel as [ | fuel IH ]; cbn; intros ua ub.
  - split; apply NoDup_nil_2.
  - destruct (best score tie ua ub (candidate_pairs ua ub))
      as [[a0 b0] | ]; [ | split; apply NoDup_nil_2 ].
    destruct (floor <=? score ua ub a0 b0)%N; [ | split; apply NoDup_nil_2 ].
    destruct (IH (without ident a0 ua) (without ident b0 ub)) as [IHa IHb].
    cbn. split; apply NoDup_cons_2; try done.
    + intros Hin. apply list_elem_of_fmap in Hin as ([a b] & Heq & Hin).
      apply greedy_elem in Hin as [Ha _].
      apply without_elem in Ha as [Hne _]. cbn in Heq. congruence.
    + intros Hin. apply list_elem_of_fmap in Hin as ([a b] & Heq & Hin).
      apply greedy_elem in Hin as [_ Hb].
      apply without_elem in Hb as [Hne _]. cbn in Heq. congruence.
Qed.

(** Fuel beyond the number of A's candidates changes nothing: the
    assignment stops because no pair is left that clears the floor. *)
Lemma greedy_fuel (fuel : nat) (ua ub : list X) :
  length ua <= fuel ->
  greedy ident score tie floor (S fuel) ua ub
  = greedy ident score tie floor fuel ua ub.
Proof.
  revert ua ub. induction fuel as [ | fuel IH ]; intros ua ub Hlen.
  - destruct ua; [ done | cbn in Hlen; lia ].
  - change (greedy ident score tie floor (S (S fuel)) ua ub)
      with (match best score tie ua ub (candidate_pairs ua ub) with
            | Some (a, b) =>
                if (floor <=? score ua ub a b)%N
                then (a, b) :: greedy ident score tie floor (S fuel)
                                 (without ident a ua) (without ident b ub)
                else []
            | None => []
            end).
    cbn [greedy].
    destruct (best score tie ua ub (candidate_pairs ua ub))
      as [[a b] | ] eqn:Hbest; [ | done ].
    destruct (floor <=? score ua ub a b)%N; [ | done ].
    f_equal. apply IH.
    apply best_elem, candidate_pairs_elem in Hbest as [Ha _].
    assert (Hlt : length (without ident a ua) < length ua)
      by (apply (length_filter_lt _ _ a); [ done | by intros Hne ]).
    lia.
Qed.

Lemma greedy_assignment_fuel (extra : nat) (ua ub : list X) :
  greedy ident score tie floor (length ua + extra) ua ub
  = greedy_assignment ident score tie floor ua ub.
Proof.
  unfold greedy_assignment.
  induction extra as [ | extra IH ]; [ by rewrite Nat.add_0_r | ].
  rewrite Nat.add_succ_r, greedy_fuel by lia. exact IH.
Qed.

End GreedyFacts.

(** *** The keyed passes *)

Lemma omap_fst_sublist {A B} (f : A -> option (A * B)) (l : list A) :
  (forall a p, f a = Some p -> fst p = a) -> (omap f l).*1 `sublist_of` l.
Proof.
  intros Hf. induction l as [ | a l IH ]; cbn; [ done | ].
  destruct (f a) as [p | ] eqn:Hfa; cbn.
  - rewrite (Hf _ _ Hfa). by apply sublist_skip.
  - by apply sublist_cons.
Qed.

Section KeyedFacts.
Context {K : Type} `{EqDecision K}.
Variable key : Function -> option K.
Variable accept : Function -> Function -> bool.

Lemma keyed_match_Some ua ub a p :
  keyed_match key accept ua ub a = Some p ->
  fst p = a /\
  exists k x,
    key (snd a) = Some k /\
    group key k ua = [x] /\
    group key k ub = [snd p] /\
    accept (snd a) (snd (snd p)) = true.
Proof.
  unfold keyed_match. destruct (key (snd a)) as [k | ]; cbn; [ | done ].
  destruct (group key k ua) as [ | x [ | ] ] eqn:Hga; try done.
  destruct (group key k ub) as [ | b [ | ] ] eqn:Hgb; try done.
  destruct (accept _ _) eqn:Hacc; [ | done ].
  intros [= <-]. cbn. eauto 10.
Qed.

Lemma group_elem k (cs : list (FunctionId * Function)) c :
  c ∈ group key k cs <-> key (snd c) = Some k /\ c ∈ cs.
Proof. unfold group. by rewrite list_elem_of_filter. Qed.

Lemma group_singleton k (cs : list (FunctionId * Function)) x c :
  group key k cs = [x] -> c ∈ cs -> key (snd c) = Some k -> c = x.
Proof.
  intros Hgroup Hc Hkey.
  assert (Hin : c ∈ group key k cs) by by apply group_elem.
  rewrite Hgroup in Hin. by apply list_elem_of_singleton in Hin.
Qed.

Lemma keyed_pass_elem ua ub a b :
  (a, b) ∈ keyed_pass key accept ua ub ->
  a ∈ ua /\ b ∈ ub /\
  exists k,
    key (snd a) = Some k /\ key (snd b) = Some k /\
    group key k ua = [a] /\ group key k ub = [b] /\
    accept (snd a) (snd b) = true.
Proof.
  unfold keyed_pass. rewrite list_elem_of_omap.
  intros (x & Hx & Hmatch).
  apply keyed_match_Some in Hmatch
    as (Hfst & k & x' & Hkey & Hga & Hgb & Hacc).
  cbn in Hfst, Hgb, Hacc. subst x.
  assert (Hb : b ∈ group key k ub)
    by (rewrite Hgb; by apply list_elem_of_singleton).
  apply group_elem in Hb as [Hkb Hb].
  rewrite <- (group_singleton _ _ _ _ Hga Hx Hkey) in Hga.
  eauto 10.
Qed.

Lemma keyed_pass_NoDup ua ub :
  NoDup ua.*1 -> NoDup ub.*1 ->
  NoDup (fst ∘ fst <$> keyed_pass key accept ua ub) /\
  NoDup (fst ∘ snd <$> keyed_pass key accept ua ub).
Proof.
  intros Hua Hub.
  assert (Hsub : (keyed_pass key accept ua ub).*1 `sublist_of` ua).
  { apply omap_fst_sublist. intros a p Hp.
    by apply keyed_match_Some in Hp as [Hfst _]. }
  assert (Hnd : NoDup (keyed_pass key accept ua ub).*1).
  { eapply sublist_NoDup; [ | exact Hsub ]. by eapply NoDup_fmap_1. }
  split.
  - rewrite list_fmap_compose.
    eapply sublist_NoDup; [ exact Hua | ]. by apply fmap_sublist.
  - apply NoDup_fmap_2_strong; [ | by eapply NoDup_fmap_1 ].
    intros [a b] [a' b'] Hp Hp' Heq. cbn in Heq.
    apply keyed_pass_elem in Hp as (Ha & Hb & k & Hka & Hkb & Hga & _).
    apply keyed_pass_elem in Hp' as (Ha' & Hb' & k' & Hka' & Hkb' & Hga' & _).
    assert (b = b') as <- by (eapply (fmap_NoDup_inj fst); eauto).
    assert (k = k') as <- by congruence.
    assert (a = a') as <- by congruence.
    done.
Qed.

(** Candidates of A that share a key are all left to the next pass. *)
Lemma keyed_pass_defers ua ub a a' b :
  a ∈ ua -> a' ∈ ua -> a ≠ a' -> key (snd a) = key (snd a') ->
  (a, b) ∉ keyed_pass key accept ua ub.
Proof.
  intros Ha Ha' Hne Hkey Hin.
  apply keyed_pass_elem in Hin as (_ & _ & k & Hk & _ & Hgroup & _).
  apply Hne. symmetry. eapply group_singleton; [ exact Hgroup | done | ].
  by rewrite <- Hkey.
Qed.

End KeyedFacts.

(** *** The Function Matcher *)

Lemma indexed_fst (P : Program) :
  (indexed P).*1 = seq 0 (length (functions P)).
Proof. unfold indexed. apply fst_zip. by rewrite length_seq. Qed.

Lemma indexed_NoDup (P : Program) : NoDup (indexed P).*1.
Proof. rewrite indexed_fst. apply NoDup_seq. Qed.

Lemma indexed_lookup (P : Program) (i : FunctionId) (f : Function) :
  (i, f) ∈ indexed P -> functions P !! i = Some f.
Proof.
  intros Hin. apply list_elem_of_lookup in Hin as [j Hj].
  unfold indexed, zip in Hj.
  apply lookup_zip_with_Some in Hj as (x & y & Heq & Hx & Hy).
  injection Heq as -> ->.
  apply lookup_seq in Hx as [-> _]. done.
Qed.

Lemma still_unmatched_elem matched (cs : list (FunctionId * Function)) c :
  c ∈ still_unmatched matched cs <-> (fst c ∉ matched) /\ c ∈ cs.
Proof. unfold still_unmatched. by rewrite list_elem_of_filter. Qed.

Lemma still_unmatched_NoDup matched (cs : list (FunctionId * Function)) :
  NoDup cs.*1 -> NoDup (still_unmatched matched cs).*1.
Proof.
  intros Hnd. eapply sublist_NoDup; [ exact Hnd | ].
  apply fmap_sublist, sublist_filter.
Qed.

Lemma tagged_elem c ps p c' :
  (p, c') ∈ tagged c ps <-> c' = c /\ p ∈ ps.
Proof.
  unfold tagged. rewrite list_elem_of_fmap. split.
  - intros (q & [= -> ->] & Hq). done.
  - intros [-> Hp]. by exists p.
Qed.

Lemma tagged_fmap {T} (g : (FunctionId * Function) * (FunctionId * Function) -> T)
    c ps :
  (fun p => g (fst p)) <$> tagged c ps = g <$> ps.
Proof. unfold tagged. rewrite <- list_fmap_compose. done. Qed.

Section MatcherFacts.
Context `{Tuning}.

Lemma match_functions_elem (A B : Program) a b c :
  (a, b, c) ∈ match_functions A B -> a ∈ indexed A /\ b ∈ indexed B.
Proof.
  unfold match_functions. rewrite !elem_of_app, !tagged_elem.
  intros [[_ Hin] | [[_ Hin] | [_ Hin]]].
  - apply keyed_pass_elem in Hin as (Ha & Hb & _). done.
  - apply keyed_pass_elem in Hin as (Ha & Hb & _).
    apply still_unmatched_elem in Ha as [_ Ha].
    apply still_unmatched_elem in Hb as [_ Hb]. done.
  - apply greedy_elem in Hin as [Ha Hb].
    apply still_unmatched_elem in Ha as [_ Ha].
    apply still_unmatched_elem in Hb as [_ Hb].
    apply still_unmatched_elem in Ha as [_ Ha].
    apply still_unmatched_elem in Hb as [_ Hb]. done.
Qed.

Lemma match_functions_NoDup (A B : Program) :
  NoDup ((fun p => fst (fst (fst p))) <$> match_functions A B) /\
  NoDup ((fun p => fst (snd (fst p))) <$> match_functions A B).
Proof.
  unfold match_functions.
  set (ua := indexed A). set (ub := indexed B).
  set (exact := keyed_pass digest_function validated ua ub).
  set (ua1 := still_unmatched (fst ∘ fst <$> exact) ua).
  set (ub1 := still_unmatched (fst ∘ snd <$> exact) ub).
  set (named := keyed_pass name (fun _ _ => true) ua1 ub1).
  set (ua2 := still_unmatched (fst ∘ fst <$> named) ua1).
  set (ub2 := still_unmatched (fst ∘ snd <$> named) ub1).
  set (fuzzy := greedy_assignment fst function_score combined_block_count
                  function_floor ua2 ub2).
  assert (Hua : NoDup ua.*1) by apply indexed_NoDup.
  assert (Hub : NoDup ub.*1) by apply indexed_NoDup.
  assert (Hua1 : NoDup ua1.*1) by by apply still_unmatched_NoDup.
  assert (Hub1 : NoDup ub1.*1) by by apply still_unmatched_NoDup.
  destruct (keyed_pass_NoDup digest_function validated ua ub Hua Hub)
    as [Hexa Hexb].
  destruct (keyed_pass_NoDup name (fun _ _ => true) ua1 ub1 Hua1 Hub1)
    as [Hnma Hnmb].
  destruct (greedy_NoDup fst function_score combined_block_count
              function_floor (length ua2) ua2 ub2) as [Hfza Hfzb].
  fold (greedy_assignment fst function_score combined_block_count
          function_floor ua2 ub2) in Hfza, Hfzb.
  fold fuzzy in Hfza, Hfzb.
  rewrite !fmap_app.
  rewrite !(tagged_fmap (fun q => fst (fst q))).
  rewrite !(tagged_fmap (fun q => fst (snd q))).
  split.
  - apply list.NoDup_app. split; [ exact Hexa | ]. split.
    + intros x Hx Hx'. apply elem_of_app in Hx' as [Hx' | Hx'];
        apply list_elem_of_fmap in Hx' as ([a b] & -> & Hin).
      * apply keyed_pass_elem in Hin as (Ha & _).
        apply still_unmatched_elem in Ha as [Hno _]. done.
      * apply greedy_elem in Hin as [Ha _].
        apply still_unmatched_elem in Ha as [_ Ha].
        apply still_unmatched_elem in Ha as [Hno _]. done.
    + apply list.NoDup_app. split; [ exact Hnma | ]. split; [ | exact Hfza ].
      intros x Hx Hx'.
      apply list_elem_of_fmap in Hx' as ([a b] & -> & Hin).
      apply greedy_elem in Hin as [Ha _].
      apply still_unmatched_elem in Ha as [Hno _]. done.
  - apply list.NoDup_app. split; [ exact Hexb | ]. split.
    + intros x Hx Hx'. apply elem_of_app in Hx' as [Hx' | Hx'];
        apply list_elem_of_fmap in Hx' as ([a b] & -> & Hin).
      * apply keyed_pass_elem in Hin as (_ & Hb & _).
        apply still_unmatched_elem in Hb as [Hno _]. done.
      * apply greedy_elem in Hin as [_ Hb].
        apply still_unmatched_elem in Hb as [_ Hb].
        apply still_unmatched_elem in Hb as [Hno _]. done.
    + apply list.NoDup_app. split; [ exact Hnmb | ]. split; [ | exact Hfzb ].
      intros x Hx Hx'.
      apply list_elem_of_fmap in Hx' as ([a b] & -> & Hin).
      apply greedy_elem in Hin as [_ Hb].
      apply still_unmatched_elem in Hb as [Hno _]. done.
Qed.

End MatcherFacts.

(** *** The Block Aligner *)

Lemma foldl_invariant {A B} (P : A -> Prop) (f : A -> B -> A) (l : list B) :
  (forall a b, P a -> P (f a b)) -> forall a, P a -> P (foldl f a l).
Proof.
  intros Hstep. induction l as [ | b l IH ]; cbn; intros a Ha; [ done | ].
  apply IH. by apply Hstep.
Qed.

(** A fold of steps that only append, and that change nothing when tried
    again later, is such a step itself. *)
Section Folds.
Context {A B : Type}.
Variable step : list A -> B -> list A.
Hypothesis step_prefix : forall m x, m `prefix_of` step m x.

Lemma foldl_prefix (l : list B) (m : list A) : m `prefix_of` foldl step m l.
Proof.
  revert m. induction l as [ | x l IH ]; cbn; intros m; [ done | ].
  etrans; [ apply step_prefix | apply IH ].
Qed.

Hypothesis step_stable :
  forall x m m', step m x `prefix_of` m' -> step m' x = m'.

Lemma foldl_stable (l : list B) (m m' : list A) :
  foldl step m l `prefix_of` m' -> foldl step m' l = m'.
Proof.
  revert m m'. induction l as [ | x l IH ]; cbn; intros m m' Hpre; [ done | ].
  rewrite (step_stable x m m').
  - by apply (IH (step m x)).
  - etrans; [ apply foldl_prefix | exact Hpre ].
Qed.

End Folds.

Section AlignerFacts.
Context `{Tuning}.
Variables fa fb : Function.

(** What every commitment preserves, every pass preserves. *)
Section Invariant.
Variable P : list (BlockId * BlockId) -> Prop.
Hypothesis Hcommit : forall m a' b', P m -> P (try_commit fa fb m a' b').

Lemma expand_invariant m p : P m -> P (expand fa fb m p).
Proof.
  intros Hm. unfold expand.
  destruct (find_block fa (fst p)) as [ba | ]; [ | done ].
  destruct (find_block fb (snd p)) as [bb | ]; [ | done ].
  revert m Hm. apply foldl_invariant. intros m k Hm.
  revert m Hm. apply foldl_invariant. intros m a' Hm.
  revert m Hm. apply foldl_invariant. intros m b' Hm.
  by apply Hcommit.
Qed.

Lemma propagate_invariant fuel m next :
  P m -> P (propagate fuel fa fb m next).
Proof.
  revert m next. induction fuel as [ | fuel IH ]; cbn; intros m next Hm;
    [ done | ].
  destruct (m !! next) as [p | ]; [ | done ].
  apply IH. by apply expand_invariant.
Qed.

End Invariant.

Lemma try_commit_one_to_one m a' b' :
  one_to_one m -> one_to_one (try_commit fa fb m a' b').
Proof.
  intros [Hma Hmb]. unfold try_commit.
  destruct (bool_decide (a' ∈ m.*1)) eqn:Ha; [ done | ].
  destruct (bool_decide (b' ∈ m.*2)) eqn:Hb; [ done | ]. cbn.
  apply bool_decide_eq_false in Ha. apply bool_decide_eq_false in Hb.
  destruct (find_block fa a') as [ba | ]; [ | done ].
  destruct (find_block fb b') as [bb | ]; [ | done ].
  destruct (compatible ba bb); [ | done ].
  unfold one_to_one. rewrite !fmap_app. cbn.
  split; apply list.NoDup_app; (split; [ done | ]);
    (split; [ | apply NoDup_singleton ]);
    intros x Hx Hx'; apply list_elem_of_singleton in Hx'; by subst x.
Qed.

Lemma try_commit_prefix m a' b' : m `prefix_of` try_commit fa fb m a' b'.
Proof.
  unfold try_commit.
  destruct (_ || _); [ done | ].
  destruct (find_block fa a') as [ba | ]; [ | done ].
  destruct (find_block fb b') as [bb | ]; [ | done ].
  destruct (compatible ba bb); [ | done ].
  by apply prefix_app_r.
Qed.

(** Once a commitment has been tried, trying it again changes nothing,
    however many pairs were committed in between. *)
Lemma try_commit_stable m m' a' b' :
  try_commit fa fb m a' b' `prefix_of` m' -> try_commit fa fb m' a' b' = m'.
Proof.
  unfold try_commit at 1. intros Hpre. unfold try_commit.
  destruct (bool_decide (a' ∈ m.*1)) eqn:Ha; cbn in Hpre.
  { apply bool_decide_eq_true in Ha. destruct Hpre as [rest ->].
    rewrite bool_decide_eq_true_2; [ done | ].
    rewrite fmap_app. apply elem_of_app. by left. }
  destruct (bool_decide (b' ∈ m.*2)) eqn:Hb; cbn in Hpre.
  { apply bool_decide_eq_true in Hb. destruct Hpre as [rest ->].
    rewrite (bool_decide_eq_true_2 (b' ∈ _));
      [ by rewrite orb_true_r | ].
    rewrite fmap_app. apply elem_of_app. by left. }
  destruct (_ || _) eqn:Hguard; [ done | ].
  destruct (find_block fa a') as [ba | ]; [ | done ].
  destruct (find_block fb b') as [bb | ]; [ | done ].
  destruct (compatible ba bb); [ | done ].
  exfalso. destruct Hpre as [rest ->].
  apply orb_false_elim in Hguard as [Hno _].
  apply bool_decide_eq_false in Hno. apply Hno.
  rewrite !fmap_app. cbn. apply elem_of_app. left.
  apply elem_of_app. right. by apply list_elem_of_singleton.
Qed.

Lemma expand_prefix m p : m `prefix_of` expand fa fb m p.
Proof.
  apply (expand_invariant (fun m' => m `prefix_of` m')); [ | done ].
  intros m' a' b' Hm'. etrans; [ exact Hm' | apply try_commit_prefix ].
Qed.

Lemma expand_stable m m' p :
  expand fa fb m p `prefix_of` m' -> expand fa fb m' p = m'.
Proof.
  unfold expand.
  destruct (find_block fa (fst p)) as [ba | ]; [ | done ].
  destruct (find_block fb (snd p)) as [bb | ]; [ | done ].
  revert m m'.
  apply foldl_stable.
  - intros m k. apply foldl_prefix. intros m1 a'.
    apply foldl_prefix. intros m2 b'. apply try_commit_prefix.
  - intros k. apply foldl_stable.
    + intros m1 a'. apply foldl_prefix. intros m2 b'.
      apply try_commit_prefix.
    + intros a'. apply foldl_stable.
      * intros m2 b'. apply try_commit_prefix.
      * intros b' m2 m2'. apply try_commit_stable.
Qed.

Lemma propagate_fixed_point fuel m next :
  (forall i p, i < next -> m !! i = Some p -> expand fa fb m p = m) ->
  length (propagate fuel fa fb m next) <= next + fuel ->
  forall p, p ∈ propagate fuel fa fb m next ->
    expand fa fb (propagate fuel fa fb m next) p
    = propagate fuel fa fb m next.
Proof.
  revert m next. induction fuel as [ | fuel IH ]; cbn; intros m next Hdone Hlen.
  - intros p Hp. apply list_elem_of_lookup in Hp as [i Hi].
    apply (Hdone i); [ | done ]. apply lookup_lt_Some in Hi. lia.
  - destruct (m !! next) as [q | ] eqn:Hq.
    + apply IH; [ | lia ].
      intros i p Hi Hp.
      pose proof (expand_prefix m q) as Hpre.
      assert (Hnext : next < length m) by by eapply lookup_lt_Some.
      rewrite <- (prefix_lookup_lt m _ i) in Hp by (done || lia).
      apply (expand_stable m).
      destruct (decide (i = next)) as [-> | Hne].
      * by replace p with q by congruence.
      * rewrite (Hdone i p) by (done || lia). exact Hpre.
    + intros p Hp. apply list_elem_of_lookup in Hp as [i Hi].
      apply (Hdone i); [ | done ].
      apply lookup_lt_Some in Hi. apply lookup_ge_None in Hq. lia.
Qed.

Lemma try_commit_blocks m a' b' :
  (forall x, x ∈ m.*1 -> x ∈ entry fa :: block_ids fa) ->
  forall x, x ∈ (try_commit fa fb m a' b').*1 -> x ∈ entry fa :: block_ids fa.
Proof.
  intros Hm x. unfold try_commit.
  destruct (_ || _); [ apply Hm | ].
  destruct (find_block fa a') as [ba | ] eqn:Hfind; [ | apply Hm ].
  destruct (find_block fb b') as [bb | ]; [ | apply Hm ].
  destruct (compatible ba bb); [ | apply Hm ].
  rewrite fmap_app. intros [Hx | Hx]%elem_of_app; [ by apply Hm | ].
  apply list_elem_of_singleton in Hx as ->.
  apply list_elem_of_further.
  apply find_block_Some in Hfind as [Hin <-].
  unfold block_ids. by apply (list_elem_of_fmap_2 block_id).
Qed.

Lemma propagated_one_to_one : one_to_one (propagated fa fb).
Proof.
  apply (propagate_invariant one_to_one try_commit_one_to_one).
  split; apply NoDup_singleton.
Qed.

Lemma propagated_anchor :
  exists rest, propagated fa fb = (entry fa, entry fb) :: rest.
Proof.
  apply (propagate_invariant
           (fun m => entry_anchor fa fb `prefix_of` m)); [ | done ].
  intros m a' b' Hm. etrans; [ exact Hm | apply try_commit_prefix ].
Qed.

(** Propagation runs to its fixed point: examining any committed pair
    again commits nothing more. *)
Lemma propagated_fixed_point (p : BlockId * BlockId) :
  p ∈ propagated fa fb ->
  expand fa fb (propagated fa fb) p = propagated fa fb.
Proof.
  apply propagate_fixed_point; [ intros i q Hi; lia | ].
  fold (propagated fa fb).
  destruct propagated_one_to_one as [Hnd _].
  transitivity (length (entry fa :: block_ids fa));
    [ | cbn; unfold block_ids; rewrite length_fmap; lia ].
  rewrite <- (length_fmap fst (propagated fa fb)).
  apply submseteq_length, NoDup_submseteq; [ done | ].
  apply (propagate_invariant
           (fun m => forall x, x ∈ m.*1 -> x ∈ entry fa :: block_ids fa)).
  - intros m a' b'. apply try_commit_blocks.
  - intros x Hx. apply list_elem_of_singleton in Hx as ->.
    apply list_elem_of_here.
Qed.

Lemma residual_elem m x y :
  (x, y) ∈ residual fa fb m -> (x ∉ m.*1) /\ (y ∉ m.*2).
Proof.
  unfold residual, greedy_assignment. rewrite list_elem_of_fmap.
  intros ([a b] & [= -> ->] & Hin).
  apply greedy_elem in Hin as [Ha Hb].
  apply list_elem_of_filter in Ha as [Ha _].
  apply list_elem_of_filter in Hb as [Hb _]. done.
Qed.

Lemma residual_one_to_one m : one_to_one (residual fa fb m).
Proof.
  unfold residual, greedy_assignment, one_to_one.
  rewrite <- !list_fmap_compose.
  apply (greedy_NoDup block_id).
Qed.

Lemma align_blocks_one_to_one :
  one_to_one (block_pairs (align_blocks fa fb)).
Proof.
  unfold align_blocks. cbn [block_pairs].
  destruct propagated_one_to_one as [Hpa Hpb].
  destruct (residual_one_to_one (propagated fa fb)) as [Hra Hrb].
  unfold one_to_one. rewrite !fmap_app.
  split; apply list.NoDup_app; (split; [ done | ]); (split; [ | done ]);
    intros x Hx Hx'; apply list_elem_of_fmap in Hx' as ([x' y'] & -> & Hin);
    apply residual_elem in Hin as [? ?]; done.
Qed.

Lemma align_blocks_anchor :
  exists rest,
    block_pairs (align_blocks fa fb) = (entry fa, entry fb) :: rest.
Proof.
  unfold align_blocks. cbn [block_pairs].
  destruct propagated_anchor as [rest ->]. by eexists.
Qed.

End AlignerFacts.

(** *** The Correspondence Map *)

Lemma list_find_unique {A} (f : A -> nat) (l : list A) (x : A) :
  NoDup (f <$> l) -> x ∈ l ->
  snd <$> list_find (fun y => f y = f x) l = Some x.
Proof.
  intros Hnd Hx.
  destruct (list_find_elem_of (fun y => f y = f x) l x Hx eq_refl)
    as [[i y] Hlf].
  rewrite Hlf. cbn. f_equal.
  apply list_find_Some in Hlf as (Hi & Hfy & _).
  eapply (fmap_NoDup_inj f); eauto.
  by eapply list_elem_of_lookup_2.
Qed.

Section MapFacts.
Context `{Tuning}.

Lemma align_inr (A B : Program) (M : CorrespondenceMap) :
  align A B = inr M ->
  matches M = record_match <$> match_functions A B.
Proof.
  unfold align.
  destruct (first_inconsistency A); [ done | ].
  destruct (first_inconsistency B); [ done | ].
  by intros [= <-].
Qed.

Lemma matches_ids (A B : Program) (M : CorrespondenceMap) :
  align A B = inr M ->
  NoDup (id_a <$> matches M) /\ NoDup (id_b <$> matches M).
Proof.
  intros HM. rewrite (align_inr _ _ _ HM), <- !list_fmap_compose.
  apply match_functions_NoDup.
Qed.

Lemma matches_elem (A B : Program) (M : CorrespondenceMap) fm :
  align A B = inr M -> fm ∈ matches M ->
  exists fa fb,
    functions A !! id_a fm = Some fa /\
    functions B !! id_b fm = Some fb /\
    alignment fm = align_blocks fa fb.
Proof.
  intros HM. rewrite (align_inr _ _ _ HM), list_elem_of_fmap.
  intros ([[[a fa] [b fb]] c] & -> & Hin).
  apply match_functions_elem in Hin as [Ha Hb].
  exists fa, fb. cbn. by split_and!; [ apply indexed_lookup.. | ].
Qed.

(** C3.  In the Correspondence Map of a run that completes, no function of
    A is on two pairs and no function of B is on two pairs, so a function
    of either side is paired with at most one function of the other; within
    every matched pair the same holds of the blocks. *)
Theorem correspondence_is_partial_bijection
    (A B : Program) (M : CorrespondenceMap) :
  align A B = inr M ->
  NoDup (id_a <$> matches M) /\
  NoDup (id_b <$> matches M) /\
  (forall fm fm', fm ∈ matches M -> fm' ∈ matches M ->
     id_a fm = id_a fm' \/ id_b fm = id_b fm' -> fm = fm') /\
  (forall fm, fm ∈ matches M -> one_to_one (block_pairs (alignment fm))).
Proof.
  intros HM. destruct (matches_ids _ _ _ HM) as [Hna Hnb].
  split; [ done | ]. split; [ done | ]. split.
  - intros fm fm' Hfm Hfm' [Heq | Heq].
    + by eapply (fmap_NoDup_inj id_a).
    + by eapply (fmap_NoDup_inj id_b).
  - intros fm Hfm.
    destruct (matches_elem _ _ _ _ HM Hfm) as (fa & fb & _ & _ & ->).
    apply align_blocks_one_to_one.
Qed.

(** C4.  In every matched function pair of a run, the entry block of A's
    function is paired with the entry block of B's function: the pair is
    the first one committed, before anything propagation or the residual
    pass add, and [blockMatch] answers it in both directions. *)
Theorem entry_blocks_matched_first
    (A B : Program) (M : CorrespondenceMap) (fm : FunctionMatch) :
  align A B = inr M ->
  fm ∈ matches M ->
  exists fa fb rest,
    functions A !! id_a fm = Some fa /\
    functions B !! id_b fm = Some fb /\
    block_pairs (alignment fm) = entry_anchor fa fb ++ rest /\
    blockMatch M (id_a fm) (entry fa) = Some (entry fb) /\
    blockMatch_rev M (id_b fm) (entry fb) = Some (entry fa).
Proof.
  intros HM Hfm.
  destruct (matches_elem _ _ _ _ HM Hfm) as (fa & fb & Ha & Hb & Hal).
  destruct (align_blocks_anchor fa fb) as [rest Hrest].
  destruct (matches_ids _ _ _ HM) as [Hna Hnb].
  exists fa, fb, rest. split_and!; try done.
  - by rewrite Hal, Hrest.
  - unfold blockMatch, match_of_a.
    rewrite (list_find_unique id_a _ _ Hna Hfm). cbn.
    rewrite Hal, Hrest. cbn. by rewrite decide_True.
  - unfold blockMatch_rev, match_of_b.
    rewrite (list_find_unique id_b _ _ Hnb Hfm). cbn.
    rewrite Hal, Hrest. cbn. by rewrite decide_True.
Qed.

End MapFacts.

Section Digest.
Context `{Tuning}.


Lemma find_block_permutation (f : Function) (bs : list BasicBlock) id :
  NoDup (block_ids f) -> blocks f ≡ₚ bs ->
  find_block (with_blocks f bs) id = find_block f id.
Proof.
  intros Hnd Hperm.
  assert (Hnd' : NoDup (block_ids (with_blocks f bs))).
  { unfold block_ids. cbn. by rewrite <- Hperm. }
  destruct (find_block f id) as [b | ] eqn:Hfind.
  - apply find_block_Some in Hfind as [Hb <-].
    apply find_block_unique; [ done | ]. cbn. by rewrite <- Hperm.
  - apply find_block_None in Hfind.
    destruct (find_block (with_blocks f bs) id) as [b | ] eqn:Hfind';
      [ | done ].
    apply find_block_Some in Hfind' as [Hb <-]. cbn in Hb.
    exfalso. apply Hfind. unfold block_ids. rewrite Hperm.
    by apply list_elem_of_fmap_2.
Qed.

(** C5.  Storing the blocks of a function in another order, with the same
    entry block, block contents and edges, leaves the function digest
    unchanged: the block count, the entry block's digest and the multiset of
    block digests are the same. *)
Theorem digest_function_storage_order (f : Function) (bs : list BasicBlock) :
  NoDup (block_ids f) ->
  blocks f ≡ₚ bs ->
  digest_function (with_blocks f bs) = digest_function f.
Proof.
  intros Hnd Hperm. unfold digest_function.
  rewrite (find_block_permutation f bs _ Hnd Hperm). cbn.
  destruct (find_block f (entry f)) as [e | ]; [ cbn | done ].
  do 2 f_equal.
  - by rewrite Hperm.
  - apply list_to_set_disj_perm. by rewrite Hperm.
Qed.

End Digest.
(** *** The engine on the scenarios of section 8 *)

Import Sample.

(** [f] against [f] and an unreferenced [g]: [f] is matched exactly with
    both blocks aligned, [g] is B-only. *)
Example scenario_extra_function :
  summary (align (H := tuning) (program "a" [f]) (program "b" [f; g]))
  = inr ([(0, 0, Exact, [(0, 0); (1, 1)], [], [])], [], [1]).
Proof. vm_compute. reflexivity. Qed.

(** Swapped block storage order: the exact match stands and the blocks are
    aligned from the entry anchor. *)
Example scenario_swapped_storage :
  summary (align (H := tuning) (program "a" [f]) (program "b" [f_swapped]))
  = inr ([(0, 0, Exact, [(0, 0); (1, 1)], [], [])], [], []).
Proof. vm_compute. reflexivity. Qed.

(** A function of A that B lacks is A-only. *)
Example scenario_absent_function :
  summary (align (H := tuning) (program "a" [f; g]) (program "b" [f]))
  = inr ([(0, 0, Exact, [(0, 0); (1, 1)], [], [])], [1], []).
Proof. vm_compute. reflexivity. Qed.

(** One block more in B: the fuzzy pass matches the two functions and the
    block is reported as added. *)
Example scenario_grown_function :
  summary (align (H := tuning) (program "a" [f_stripped])
             (program "b" [f_grown]))
  = inr ([(0, 0, Fuzzy, [(0, 0); (1, 1)], [], [2])], [], []).
Proof. vm_compute. reflexivity. Qed.

(** A program against itself when two of its functions have the same
    body: their digest group has two candidates on each side, so the exact
    pass leaves them to the name pass. *)
Example scenario_twins_by_name :
  summary (align (H := tuning) (program "a" [f; f_twin])
             (program "a" [f; f_twin]))
  = inr ([(0, 0, Name, [(0, 0); (1, 1)], [], []);
          (1, 1, Name, [(0, 0); (1, 1)], [], [])], [], []).
Proof. vm_compute. reflexivity. Qed.

(** The same without names: the pairs come from the fuzzy pass. *)
Example scenario_twins_stripped :
  summary (align (H := tuning) (program "a" [f_stripped; f_stripped])
             (program "a" [f_stripped; f_stripped]))
  = inr ([(0, 0, Fuzzy, [(0, 0); (1, 1)], [], []);
          (1, 1, Fuzzy, [(0, 0); (1, 1)], [], [])], [], []).
Proof. vm_compute. reflexivity. Qed.

(** A dangling edge is a structural inconsistency. *)
Example scenario_dangling_edge :
  align (H := tuning)
    (program "a" [fn None [ {| block_id := 0; instructions := [ins 1];
                                successors := [(BranchTaken, 5)];
                                unreachable_but_present := false |} ]])
    (program "b" [f])
  = inl (StructuralInconsistency "a" 0).
Proof. vm_compute. reflexivity. Qed.

Lemma digest_function_storage_order_witness :
  NoDup (block_ids f) /\
  blocks f ≡ₚ blocks f_swapped /\
  digest_function (H := tuning) f_swapped = digest_function (H := tuning) f.
Proof.
  assert (Hnd : NoDup (block_ids f))
    by (refine (bool_decide_unpack _ _); vm_compute; exact I).
  assert (Hperm : blocks f ≡ₚ [bb_exit; bb_entry]) by apply perm_swap.
  split; [ exact Hnd | ]. split; [ exact Hperm | ].
  apply (digest_function_storage_order (H := tuning) f [bb_exit; bb_entry]
           Hnd Hperm).
Defined.

Lemma correspondence_is_partial_bijection_witness :
  exists M,
    align (H := tuning) (program "a" [f; g]) (program "b" [g; f_swapped])
      = inr M /\
    (id_a <$> matches M) = [0; 1] /\
    NoDup (id_b <$> matches M).
Proof.
  eexists. split; [ vm_compute; reflexivity | ].
  split; [ reflexivity | ].
  eapply (correspondence_is_partial_bijection (H := tuning)
            (program "a" [f; g]) (program "b" [g; f_swapped])).
  vm_compute. reflexivity.
Defined.

Lemma entry_blocks_matched_first_witness :
  exists M fm,
    align (H := tuning) (program "a" [f]) (program "b" [f_swapped]) = inr M /\
    fm ∈ matches M /\
    blockMatch M (id_a fm) 0 = Some 0.
Proof.
  eexists _, _. split; [ vm_compute; reflexivity | ].
  split; [ apply list_elem_of_here | ].
  destruct (entry_blocks_matched_first (H := tuning)
              (program "a" [f]) (program "b" [f_swapped]) _ _
              eq_refl (list_elem_of_here _ _))
    as (fa & fb & rest & Ha & Hb & _ & Hfwd & _).
  injection Ha as <-. injection Hb as <-. exact Hfwd.
Defined.

End EngineFacts.
